(** * randomart.py: expression trees for random art

    A shallow embedding of [randomart.py]: the numeric helpers
    ([average], [rgb], [well], [tent]), the expression classes with their
    [eval] methods, the operator tables and [generate].

    Modelling conventions.
    - A Python float is read as a real number ([R]); [math.sin] is [sin] and
      [math.pi] is [PI].  Rounding is not represented.  [eval], [well],
      [tent] and [rgb] are what the program computes while every
      intermediate result is a finite float; [eval_checked], [well_checked]
      and [rgb_checked] follow it out of that range, where [**] and [int]
      raise [OverflowError] and [math.sin] raises [ValueError].
    - A Python exception is a value of [exn]; code that can raise returns a
      [res].  Inside the finite range the two float operations of the
      program that raise are [/] and [%] with a zero right operand.
    - The module-level generator of [random] is an explicit state threaded
      through [generate] and the constructors ([RandomSource]).
    - An instance of a class is a constructor of [expr] carrying the
      attributes that [__init__] stores. *)

From Stdlib Require Import Reals Lra ZArith Lia List Bool String Ascii.
From Stdlib Require Import Sorting.Sorted Sorting.Permutation Sorting.Mergesort Orders.
Import ListNotations.

Set Implicit Arguments.

(** ** Exceptions *)

Inductive exn : Type :=
| ZeroDivisionError
| TypeError
| ValueError
| OverflowError
| IndexError
| RecursionError.

Inductive res (A : Type) : Type :=
| Ok (a : A)
| Raise (e : exn).

Arguments Ok {A} a.
Arguments Raise {A} e.

Definition res_bind {A B : Type} (r : res A) (k : A -> res B) : res B :=
  match r with
  | Ok a => k a
  | Raise e => Raise e
  end.

Declare Scope res_scope.
Delimit Scope res_scope with res.
Notation "x <- c ;; k" := (res_bind c (fun x => k))
  (at level 61, c at next level, right associativity) : res_scope.
Notation "' p <- c ;; k" := (res_bind c (fun x => match x with p => k end))
  (at level 61, p pattern, c at next level, right associativity) : res_scope.

(** ** Float operations that the embedding has to spell out *)

Section Numeric.
Local Open Scope R_scope.

(** [a / b] on floats: [ZeroDivisionError] when [b] is zero. *)
Definition py_div (a b : R) : res R :=
  if Req_dec_T b 0 then Raise ZeroDivisionError else Ok (a / b).

(** [a % b] on floats: [ZeroDivisionError] when [b] is zero, otherwise the
    remainder of the floored quotient (it has the sign of [b]). *)
Definition py_mod (a b : R) : res R :=
  if Req_dec_T b 0 then Raise ZeroDivisionError
  else Ok (a - b * IZR (Int_part (a / b))).

(** [int(v)] on a float: truncation towards zero. *)
Definition py_int (v : R) : Z :=
  if Rle_dec 0 v then Int_part v else (- Int_part (- v))%Z.

(** ** Utility functions *)

Definition color : Type := R * R * R.

(** [average(c1, c2, w)]; callers that omit [w] pass the default [0.5]. *)
Definition average (c1 c2 : color) (w : R) : color :=
  let '(r1, g1, b1) := c1 in
  let '(r2, g2, b2) := c2 in
  let r3 := w * r1 + (1 - w) * r2 in
  let g3 := w * g1 + (1 - w) * g2 in
  let b3 := w * b1 + (1 - w) * b2 in
  (r3, g3, b3).

Definition average_default_w : R := 5 / 10.

(** [well(x)]: [1 - 2 / (1 + x*x) ** 8]; [**] binds tighter than [/]. *)
Definition well (x : R) : res R :=
  (q <- py_div 2 ((1 + x * x) ^ 8) ;; Ok (1 - q))%res.

(** [tent(x)]: [1 - 2 * abs(x)]. *)
Definition tent (x : R) : R := 1 - 2 * Rabs x.

(** One channel of [rgb]: [max(0, min(255, int(128 * (v + 1))))]. *)
Definition rgb_channel (v : R) : Z :=
  Z.max 0 (Z.min 255 (py_int (128 * (v + 1)))).

End Numeric.

(** The [%02x] conversion for an argument in 0..255: two lower-case
    hexadecimal digits. *)
Definition hex_digit (d : Z) : ascii :=
  match d with
  | 0%Z => "0" | 1%Z => "1" | 2%Z => "2" | 3%Z => "3"
  | 4%Z => "4" | 5%Z => "5" | 6%Z => "6" | 7%Z => "7"
  | 8%Z => "8" | 9%Z => "9" | 10%Z => "a" | 11%Z => "b"
  | 12%Z => "c" | 13%Z => "d" | 14%Z => "e" | _ => "f"
  end%char.

Definition fmt_02x (n : Z) : string :=
  String (hex_digit (n / 16)) (String (hex_digit (n mod 16)) EmptyString).

(** [rgb(r,g,b)]: the string ['#%02x%02x%02x' % (u, v, w)]. *)
Definition rgb (r g b : R) : string :=
  let u := rgb_channel r in
  let v := rgb_channel g in
  let w := rgb_channel b in
  String "#"%char (fmt_02x u ++ fmt_02x v ++ fmt_02x w)%string.

(** ** Expression trees *)

(** The classes, as the entries of the [operators] tuple. *)
Inductive operator : Type :=
| ClsVariableX | ClsVariableY | ClsConstant
| ClsSum | ClsProduct | ClsMod
| ClsSin | ClsTent | ClsWell
| ClsLevel | ClsMix.

(** The class attribute [arity]. *)
Definition arity (op : operator) : Z :=
  match op with
  | ClsVariableX | ClsVariableY | ClsConstant => 0
  | ClsSum | ClsProduct | ClsMod => 2
  | ClsWell | ClsTent | ClsSin => 1
  | ClsLevel | ClsMix => 3
  end%Z.

(** The instances, with the attributes set by [__init__]. *)
Inductive expr : Type :=
| VariableX
| VariableY
| Constant (c : color)
| Sum (e1 e2 : expr)
| Product (e1 e2 : expr)
| Mod (e1 e2 : expr)
| Well (e : expr)
| Tent (e : expr)
| Sin (e : expr) (phase freq : R)
| Level (treshold : R) (level e1 e2 : expr)
| Mix (w e1 e2 : expr).

Definition class_of (e : expr) : operator :=
  match e with
  | VariableX => ClsVariableX
  | VariableY => ClsVariableY
  | Constant _ => ClsConstant
  | Sum _ _ => ClsSum
  | Product _ _ => ClsProduct
  | Mod _ _ => ClsMod
  | Well _ => ClsWell
  | Tent _ => ClsTent
  | Sin _ _ _ => ClsSin
  | Level _ _ _ _ => ClsLevel
  | Mix _ _ _ => ClsMix
  end.

(** The subexpressions an instance holds, in constructor-argument order. *)
Definition children (e : expr) : list expr :=
  match e with
  | VariableX | VariableY | Constant _ => []
  | Sum e1 e2 | Product e1 e2 | Mod e1 e2 => [e1; e2]
  | Well e | Tent e | Sin e _ _ => [e]
  | Level _ level e1 e2 => [level; e1; e2]
  | Mix w e1 e2 => [w; e1; e2]
  end.

(** ** The [eval] methods *)

Section Eval.
Local Open Scope R_scope.
Local Open Scope res_scope.

(** The body of [Mod.eval] after both children are evaluated: the [try]
    block, and the bare [except] that answers [(0,0,0)]. *)
Definition mod_try (c1 c2 : color) : color :=
  let '(r1, g1, b1) := c1 in
  let '(r2, g2, b2) := c2 in
  match (r3 <- py_mod r1 r2 ;;
         g3 <- py_mod g1 g2 ;;
         b3 <- py_mod b1 b2 ;;
         Ok (r3, g3, b3)) with
  | Ok c => c
  | Raise _ => (0, 0, 0)
  end.

Fixpoint eval (e : expr) (x y : R) : res color :=
  match e with
  | VariableX => Ok (x, x, x)
  | VariableY => Ok (y, y, y)
  | Constant c => Ok c
  | Sum e1 e2 =>
      c1 <- eval e1 x y ;;
      c2 <- eval e2 x y ;;
      Ok (average c1 c2 average_default_w)
  | Product e1 e2 =>
      '(r1, g1, b1) <- eval e1 x y ;;
      '(r2, g2, b2) <- eval e2 x y ;;
      let r3 := r1 * r2 in
      let g3 := g1 * g2 in
      let b3 := b1 * b2 in
      Ok (r3, g3, b3)
  | Mod e1 e2 =>
      c1 <- eval e1 x y ;;
      c2 <- eval e2 x y ;;
      Ok (mod_try c1 c2)
  | Well e =>
      '(r, g, b) <- eval e x y ;;
      wr <- well r ;;
      wg <- well g ;;
      wb <- well b ;;
      Ok (wr, wg, wb)
  | Tent e =>
      '(r, g, b) <- eval e x y ;;
      Ok (tent r, tent g, tent b)
  | Sin e phase freq =>
      '(r1, g1, b1) <- eval e x y ;;
      let r2 := sin (phase + freq * r1) in
      let g2 := sin (phase + freq * g1) in
      let b2 := sin (phase + freq * b1) in
      Ok (r2, g2, b2)
  | Level treshold level e1 e2 =>
      '(r1, g1, b1) <- eval level x y ;;
      '(r2, g2, b2) <- eval e1 x y ;;
      '(r3, g3, b3) <- eval e2 x y ;;
      let r4 := if Rlt_dec r1 treshold then r2 else r3 in
      let g4 := if Rlt_dec g1 treshold then g2 else g3 in
      let b4 := if Rlt_dec b1 treshold then b2 else b3 in
      Ok (r4, g4, b4)
  | Mix w e1 e2 =>
      '(wr, _, _) <- eval w x y ;;
      let w := 5 / 10 * (wr + 1) in
      c1 <- eval e1 x y ;;
      c2 <- eval e2 x y ;;
      Ok (average c1 c2 average_default_w)
  end.

End Eval.

(** ** Outside the finite range of floats

    [eval], [well], [tent] and [rgb] above read a float as the real number
    it stands for.  That is what the program computes, up to rounding, as
    long as every intermediate result is a finite float.  The [_checked]
    definitions follow the program out of that range as far as its
    exceptions go: a real of magnitude [float_overflow] or more rounds to
    an infinity; [**] and [int] raise [OverflowError] and [math.sin] raises
    [ValueError] on it.  Where the program goes on computing with an
    infinity as a value (a product, the doubling in [tent], the square in
    [well]) the reading stops with [NotFinite].  Rounding inside the finite
    range is not represented. *)

Section Checked.
Local Open Scope R_scope.

(** The least magnitude that binary64 rounds to an infinity. *)
Definition float_overflow : R := IZR (2 ^ 1024 - 2 ^ 970).

Definition finite (v : R) : bool :=
  if Rlt_dec (Rabs v) float_overflow then true else false.

Inductive outcome (A : Type) : Type :=
| Returns (a : A)
| Raises (e : exn)
| NotFinite.

Arguments Returns {A} a.
Arguments Raises {A} e.
Arguments NotFinite {A}.

Definition out_bind {A B : Type} (o : outcome A) (k : A -> outcome B)
  : outcome B :=
  match o with
  | Returns a => k a
  | Raises e => Raises e
  | NotFinite => NotFinite
  end.

Definition of_res {A : Type} (r : res A) : outcome A :=
  match r with
  | Ok a => Returns a
  | Raise e => Raises e
  end.

(** A product of two floats. *)
Definition mul_checked (a b : R) : outcome R :=
  if finite (a * b) then Returns (a * b) else NotFinite.

(** [well(x)]: the square may be an infinity, which the program goes on
    with; [**] raises [OverflowError] when the power of a finite float
    overflows. *)
Definition well_checked (x : R) : outcome R :=
  if finite (x * x) then
    if finite ((1 + x * x) ^ 8) then of_res (well x)
    else Raises OverflowError
  else NotFinite.

(** [tent(x)]: the doubling may give an infinity. *)
Definition tent_checked (x : R) : outcome R :=
  if finite (2 * Rabs x) then Returns (tent x) else NotFinite.

(** [math.sin(phase + freq * v)]: [ValueError] when the argument is an
    infinity, which it is when the product or the sum overflows. *)
Definition sin_checked (phase freq v : R) : outcome R :=
  if finite (freq * v) && finite (phase + freq * v)
  then Returns (sin (phase + freq * v))
  else Raises ValueError.

End Checked.

Arguments Returns {A} a.
Arguments Raises {A} e.
Arguments NotFinite {A}.

Declare Scope out_scope.
Delimit Scope out_scope with out.
Notation "x <- c ;; k" := (out_bind c (fun x => k))
  (at level 61, c at next level, right associativity) : out_scope.
Notation "' p <- c ;; k" := (out_bind c (fun x => match x with p => k end))
  (at level 61, p pattern, c at next level, right associativity) : out_scope.

Section EvalChecked.
Local Open Scope R_scope.
Local Open Scope out_scope.

(** The [eval] methods again, with the exceptions of the float range; the
    coordinates are finite floats. *)
Fixpoint eval_checked (e : expr) (x y : R) : outcome color :=
  match e with
  | VariableX => Returns (x, x, x)
  | VariableY => Returns (y, y, y)
  | Constant c => Returns c
  | Sum e1 e2 =>
      c1 <- eval_checked e1 x y ;;
      c2 <- eval_checked e2 x y ;;
      Returns (average c1 c2 average_default_w)
  | Product e1 e2 =>
      '(r1, g1, b1) <- eval_checked e1 x y ;;
      '(r2, g2, b2) <- eval_checked e2 x y ;;
      r3 <- mul_checked r1 r2 ;;
      g3 <- mul_checked g1 g2 ;;
      b3 <- mul_checked b1 b2 ;;
      Returns (r3, g3, b3)
  | Mod e1 e2 =>
      c1 <- eval_checked e1 x y ;;
      c2 <- eval_checked e2 x y ;;
      Returns (mod_try c1 c2)
  | Well e =>
      '(r, g, b) <- eval_checked e x y ;;
      wr <- well_checked r ;;
      wg <- well_checked g ;;
      wb <- well_checked b ;;
      Returns (wr, wg, wb)
  | Tent e =>
      '(r, g, b) <- eval_checked e x y ;;
      tr <- tent_checked r ;;
      tg <- tent_checked g ;;
      tb <- tent_checked b ;;
      Returns (tr, tg, tb)
  | Sin e phase freq =>
      '(r1, g1, b1) <- eval_checked e x y ;;
      r2 <- sin_checked phase freq r1 ;;
      g2 <- sin_checked phase freq g1 ;;
      b2 <- sin_checked phase freq b1 ;;
      Returns (r2, g2, b2)
  | Level treshold level e1 e2 =>
      '(r1, g1, b1) <- eval_checked level x y ;;
      '(r2, g2, b2) <- eval_checked e1 x y ;;
      '(r3, g3, b3) <- eval_checked e2 x y ;;
      let r4 := if Rlt_dec r1 treshold then r2 else r3 in
      let g4 := if Rlt_dec g1 treshold then g2 else g3 in
      let b4 := if Rlt_dec b1 treshold then b2 else b3 in
      Returns (r4, g4, b4)
  | Mix w e1 e2 =>
      '(wr, _, _) <- eval_checked w x y ;;
      let w := 5 / 10 * (wr + 1) in
      c1 <- eval_checked e1 x y ;;
      c2 <- eval_checked e2 x y ;;
      Returns (average c1 c2 average_default_w)
  end.

End EvalChecked.

Section RgbChecked.
Local Open Scope res_scope.

(** [int(v)]: [OverflowError] when the float is an infinity. *)
Definition int_checked (v : R) : res Z :=
  if finite v then Ok (py_int v) else Raise OverflowError.

(** One channel of [rgb], with the exception of [int]. *)
Definition rgb_channel_checked (v : R) : res Z :=
  i <- int_checked (128 * (v + 1))%R ;;
  Ok (Z.max 0 (Z.min 255 i)).

(** [rgb(r,g,b)], with the exception of [int]. *)
Definition rgb_checked (r g b : R) : res string :=
  u <- rgb_channel_checked r ;;
  v <- rgb_channel_checked g ;;
  w <- rgb_channel_checked b ;;
  Ok (String "#"%char (fmt_02x u ++ fmt_02x v ++ fmt_02x w)%string).

End RgbChecked.

(** ** The random module *)

(** The generator behind [random]: [randbelow n] is the uniform draw from
    [range(n)] on which [choice] and [randrange] are built, [random] the
    uniform draw from the half-open unit interval behind [uniform]. *)
Class RandomSource (G : Type) : Type := {
  randbelow : Z -> G -> Z * G;
  randbelow_range :
    forall n g, (0 < n)%Z -> (0 <= fst (randbelow n g) < n)%Z;
  random : G -> R * G;
  random_range : forall g, (0 <= fst (random g) < 1)%R
}.

(** Computations that draw random numbers and may raise. *)
Definition M (G A : Type) : Type := G -> res A * G.

Definition ret {G A : Type} (a : A) : M G A := fun g => (Ok a, g).

Definition raise {G A : Type} (e : exn) : M G A := fun g => (Raise e, g).

Definition bind {G A B : Type} (m : M G A) (k : A -> M G B) : M G B :=
  fun g =>
    match m g with
    | (Ok a, g') => k a g'
    | (Raise e, g') => (Raise e, g')
    end.

Declare Scope gen_scope.
Delimit Scope gen_scope with gen.
Notation "x <- c ;; k" := (bind c (fun x => k))
  (at level 61, c at next level, right associativity) : gen_scope.
Notation "' p <- c ;; k" := (bind c (fun x => match x with p => k end))
  (at level 61, p pattern, c at next level, right associativity) : gen_scope.

Fixpoint mapM {G A B : Type} (f : A -> M G B) (l : list A) : M G (list B) :=
  match l with
  | [] => ret []
  | a :: l' => (b <- f a ;; bs <- mapM f l' ;; ret (b :: bs))%gen
  end.

(** [sorted] on a list of integers. *)
Module ZLeBool <: TotalLeBool.
Definition t := Z.
Definition leb := Z.leb.
Lemma leb_total : forall a1 a2, leb a1 a2 = true \/ leb a2 a1 = true.
Proof.
  intros a1 a2; unfold leb.
  destruct (Z.leb_spec a1 a2); [now left | right].
  apply Z.leb_le; lia.
Qed.
End ZLeBool.

Module ZSort := Sort ZLeBool.

Definition sorted (l : list Z) : list Z := ZSort.sort l.

Section Random.
Context {G : Type} `{RandomSource G}.
Local Open Scope gen_scope.

(** [random.uniform(a, b)]: [a + (b - a) * random()]. *)
Definition uniform (a b : R) : M G R :=
  fun g => let (u, g') := random g in (Ok (a + (b - a) * u)%R, g').

(** [random.randrange(k)]: [ValueError] on an empty range. *)
Definition randrange (k : Z) : M G Z :=
  fun g =>
    if (0 <? k)%Z then let (i, g') := randbelow k g in (Ok i, g')
    else (Raise ValueError, g).

(** [random.choice(seq)]: [IndexError] on an empty sequence. *)
Definition choice {A : Type} (seq : list A) : M G A :=
  fun g =>
    match seq with
    | [] => (Raise IndexError, g)
    | d :: _ =>
        let (i, g') := randbelow (Z.of_nat (List.length seq)) g in
        (Ok (nth (Z.to_nat i) seq d), g')
    end.

(** ** Construction: the call [op( *args )]

    The call raises [TypeError] unless [args] has as many elements as
    [__init__] has parameters; [__init__] then draws the random attributes
    of [Constant], [Sin] and [Level]. *)
Definition construct (op : operator) (args : list expr) : M G expr :=
  match op, args with
  | ClsVariableX, [] => ret VariableX
  | ClsVariableY, [] => ret VariableY
  | ClsConstant, [] =>
      r <- uniform 0 1 ;;
      g <- uniform 0 1 ;;
      b <- uniform 0 1 ;;
      ret (Constant (r, g, b))
  | ClsSum, [e1; e2] => ret (Sum e1 e2)
  | ClsProduct, [e1; e2] => ret (Product e1 e2)
  | ClsMod, [e1; e2] => ret (Mod e1 e2)
  | ClsWell, [e] => ret (Well e)
  | ClsTent, [e] => ret (Tent e)
  | ClsSin, [e] =>
      phase <- uniform 0 PI ;;
      freq <- uniform 1 6 ;;
      ret (Sin e phase freq)
  | ClsLevel, [level; e1; e2] =>
      treshold <- uniform (-1) 1 ;;
      ret (Level treshold level e1 e2)
  | ClsMix, [w; e1; e2] => ret (Mix w e1 e2)
  | _, _ => raise TypeError
  end.

(** ** The operator tables *)

Definition operators : list operator :=
  [ClsVariableX; ClsVariableY; ClsConstant; ClsSum; ClsProduct; ClsMod;
   ClsSin; ClsTent; ClsWell; ClsLevel; ClsMix].

Definition operators0 : list operator :=
  filter (fun op => (arity op =? 0)%Z) operators.

Definition operators1 : list operator :=
  filter (fun op => (arity op >? 0)%Z) operators.

(** ** [generate] *)

(** The list comprehension [[random.randrange(k) for l in range(n)]]. *)
Fixpoint randranges (k : Z) (n : nat) : M G (list Z) :=
  match n with
  | O => ret []
  | S n' => j <- randrange k ;; js <- randranges k n' ;; ret (j :: js)
  end.

(** The [for j in ...] loop over the sorted draws and the [append] after
    it: [i] is the size used up so far, [args] the subexpressions generated
    so far, [rec] the recursive call. *)
Fixpoint gen_args (rec : Z -> M G expr) (k : Z) (js : list Z) (i : Z)
    (args : list expr) : M G (list expr) :=
  match js with
  | [] =>
      e <- rec (k - 1 - i)%Z ;;
      ret (args ++ [e])
  | j :: js' =>
      e <- rec (j - i)%Z ;;
      gen_args rec k js' j (args ++ [e])
  end.

Definition generate_body (rec : Z -> M G expr) (k : Z) : M G expr :=
  if (k <=? 0)%Z then
    op <- choice operators0 ;;
    construct op []
  else
    op <- choice operators1 ;;
    js <- randranges k (Z.to_nat (arity op - 1)) ;;
    args <- gen_args rec k (sorted js) 0%Z [] ;;
    construct op args.

(** [fuel] is the depth of recursion still allowed; the interpreter raises
    [RecursionError] when it is used up. *)
Fixpoint generate_fuel (fuel : nat) (k : Z) : M G expr :=
  match fuel with
  | O => raise RecursionError
  | S fuel' => generate_body (generate_fuel fuel') k
  end.

(** [generate(k)], with a recursion depth of one more than the size, which
    is shown below to be enough for every [k]. *)
Definition generate (k : Z) : M G expr :=
  generate_fuel (S (Z.to_nat k)) k.

End Random.

(** A computation that may raise, run without drawing. *)
Definition lift {G A : Type} (r : res A) : M G A := fun g => (r, g).

(** ** Auxiliary definitions for the statements *)

(** Every node of a tree, root first. *)
Fixpoint nodes (e : expr) : list expr :=
  e :: match e with
       | VariableX | VariableY | Constant _ => []
       | Sum e1 e2 | Product e1 e2 | Mod e1 e2 => nodes e1 ++ nodes e2
       | Well e' | Tent e' | Sin e' _ _ => nodes e'
       | Level _ l e1 e2 | Mix l e1 e2 => nodes l ++ nodes e1 ++ nodes e2
       end.

(** The number of nodes on the longest path from the root to a leaf. *)
Fixpoint height (e : expr) : nat :=
  match e with
  | VariableX | VariableY | Constant _ => 1
  | Sum e1 e2 | Product e1 e2 | Mod e1 e2 =>
      S (Nat.max (height e1) (height e2))
  | Well e' | Tent e' | Sin e' _ _ => S (height e')
  | Level _ l e1 e2 | Mix l e1 e2 =>
      S (Nat.max (height l) (Nat.max (height e1) (height e2)))
  end.

(** A node holds as many subexpressions as its class declares. *)
Definition arity_respected (n : expr) : Prop :=
  Z.of_nat (List.length (children n)) = arity (class_of n) /\
  (arity (class_of n) = 0%Z -> children n = []).

(** The sizes the loop of [generate] hands to the recursive calls, in call
    order, read off [gen_args]: [i] is the previous cut point. *)
Fixpoint loop_budgets (k : Z) (js : list Z) (i : Z) : list Z :=
  match js with
  | [] => [(k - 1 - i)%Z]
  | j :: js' => (j - i)%Z :: loop_budgets k js' j
  end.

(** The distribution of the size among the children in the words of the
    description: with cut points [c_1 .. c_(a-1)] and [c_0 = 0], child [i]
    gets [c_i - c_(i-1)] and the last child gets [k - 1 - c_(a-1)]. *)
Definition cut_point (cs : list Z) (i : nat) : Z :=
  match i with
  | O => 0%Z
  | S i' => nth i' cs 0%Z
  end.

Definition spec_budget (k : Z) (cs : list Z) (i : nat) : Z :=
  if (i <=? List.length cs)%nat
  then (cut_point cs i - cut_point cs (i - 1))%Z
  else (k - 1 - cut_point cs (List.length cs))%Z.

Definition spec_budgets (k : Z) (cs : list Z) : list Z :=
  map (spec_budget k cs) (List.seq 1 (S (List.length cs))).

(** The channel mapping in the words of the description:
    [clamp(0, 255, floor(128 * (v + 1)))]. *)
Definition clamp (lo hi z : Z) : Z := Z.max lo (Z.min hi z).

Definition spec_channel (v : R) : Z :=
  clamp 0 255 (Int_part (128 * (v + 1))%R).

(** ** Notions for the statements about whole trees *)

(** A property of every node of a tree. *)
Fixpoint every_node (P : expr -> Prop) (e : expr) : Prop :=
  P e /\
  match e with
  | VariableX | VariableY | Constant _ => True
  | Sum e1 e2 | Product e1 e2 | Mod e1 e2 =>
      every_node P e1 /\ every_node P e2
  | Well e' | Tent e' | Sin e' _ _ => every_node P e'
  | Level _ l e1 e2 | Mix l e1 e2 =>
      every_node P l /\ every_node P e1 /\ every_node P e2
  end.

Definition unit_range (v : R) : Prop := (-1 <= v <= 1)%R.

Definition in_unit (c : color) : Prop :=
  let '(r, g, b) := c in unit_range r /\ unit_range g /\ unit_range b.

(** The colour of a [Constant] lies in the unit range. *)
Definition constant_in_unit (n : expr) : Prop :=
  match n with
  | Constant c => in_unit c
  | _ => True
  end.

(** The attributes that [__init__] draws lie in the interval it draws
    them from. *)
Definition drawn_in_range (n : expr) : Prop :=
  match n with
  | Constant (r, g, b) => (0 <= r < 1 /\ 0 <= g < 1 /\ 0 <= b < 1)%R
  | Sin _ phase freq => (0 <= phase < PI /\ 1 <= freq < 6)%R
  | Level treshold _ _ _ => (-1 <= treshold < 1)%R
  | _ => True
  end.

(** The number of nodes that are not leaves. *)
Fixpoint composites (e : expr) : nat :=
  match e with
  | VariableX | VariableY | Constant _ => 0
  | Sum e1 e2 | Product e1 e2 | Mod e1 e2 =>
      S (composites e1 + composites e2)
  | Well e' | Tent e' | Sin e' _ _ => S (composites e')
  | Level _ l e1 e2 | Mix l e1 e2 =>
      S (composites l + composites e1 + composites e2)
  end.

Definition sum_Z (l : list Z) : Z := fold_right Z.add 0%Z l.


(** ** The [Art] class

    The canvas is the list of the rectangles created on it, oldest first;
    a later rectangle is drawn over an earlier one.  [draw_alarm] tells
    whether a call of [draw] is scheduled with [after]: between two method
    calls this is the case exactly when the attribute is not [None].  The
    window, the button and the timing of the event loop are not
    represented. *)

Section RandomBetween.
Context {G : Type} `{RandomSource G}.

(** [random.randrange(start, stop)]: [ValueError] on an empty range. *)
Definition randrange_between (start stop : Z) : M G Z :=
  fun g =>
    if (0 <? stop - start)%Z
    then let (i, g') := randbelow (stop - start)%Z g in
         (Ok (start + i)%Z, g')
    else (Raise ValueError, g).

End RandomBetween.

Module Gui.

Record rectangle : Type := {
  x0 : Z;
  y0 : Z;
  x1 : Z;
  y1 : Z;
  fill : string
}.

Record Art : Type := {
  size : Z;
  canvas : list rectangle;
  art : expr;
  d : Z;
  y : Z;
  draw_alarm : bool
}.

(** [range(0, stop, step)] for a positive [step]. *)
Definition range_step (stop step : Z) : list Z :=
  map (fun i => (Z.of_nat i * step)%Z)
      (List.seq 0 (Z.to_nat ((stop + step - 1) / step))).

(** [2 * float(p + d/2)/size - 1.0]. *)
Definition coordinate (sz dd p : Z) : res R :=
  (q <- py_div (2 * (IZR p + IZR dd / 2))%R (IZR sz) ;; Ok (q - 1)%R)%res.

(** One turn of the [for] loop of [draw]: the rectangle it creates. *)
Definition paint (self : Art) (x : Z) : res rectangle :=
  (u <- coordinate (size self) (d self) x ;;
   v <- coordinate (size self) (d self) (y self) ;;
   '(r, g, b) <- eval (art self) u v ;;
   Ok {| x0 := x; y0 := y self;
         x1 := (x + d self)%Z; y1 := (y self + d self)%Z;
         fill := rgb r g b |})%res.

Definition create_rectangle (self : Art) (rc : rectangle) : Art :=
  {| size := size self; canvas := (canvas self ++ [rc])%list;
     art := art self; d := d self; y := y self;
     draw_alarm := draw_alarm self |}.

Fixpoint draw_row (self : Art) (xs : list Z) : res Art :=
  match xs with
  | [] => Ok self
  | x :: xs' =>
      (rc <- paint self x ;; draw_row (create_rectangle self rc) xs')%res
  end.

(** [draw]. *)
Definition draw (self : Art) : res Art :=
  let self :=
    if (size self <=? y self)%Z
    then {| size := size self; canvas := canvas self; art := art self;
            d := (d self / 4)%Z; y := 0%Z; draw_alarm := draw_alarm self |}
    else self in
  if (1 <=? d self)%Z then
    (self <- draw_row self (range_step (size self) (d self)) ;;
     Ok {| size := size self; canvas := canvas self; art := art self;
           d := d self; y := (y self + d self)%Z; draw_alarm := true |})%res
  else
    Ok {| size := size self; canvas := canvas self; art := art self;
          d := d self; y := y self; draw_alarm := false |}.

(** The event loop, as far as [after] drives it: it runs the scheduled
    call of [draw], at most [n] times in all. *)
Fixpoint mainloop (n : nat) (self : Art) : res Art :=
  match n with
  | O => Ok self
  | S n' =>
      if draw_alarm self
      then (self' <- draw self ;; mainloop n' self')%res
      else Ok self
  end.

Section Redraw.
Context {G : Type} `{RandomSource G}.

(** [redraw]: the scheduled call is cancelled, the canvas emptied, a new
    expression generated, and [draw] called. *)
Definition redraw (self : Art) : M G Art :=
  (k <- randrange_between 20 150 ;;
   e <- generate k ;;
   lift (draw {| size := size self; canvas := []; art := e;
                 d := 64%Z; y := 0%Z; draw_alarm := false |}))%gen.

End Redraw.

(** A rectangle is the cell of pixel [(px, py)] at the finest resolution,
    filled with the colour of the expression at the centre of the pixel. *)
Definition unit_cell (self : Art) (px py : Z) (rc : rectangle) : Prop :=
  exists u v r g b,
    coordinate (size self) 1 px = Ok u /\
    coordinate (size self) 1 py = Ok v /\
    eval (art self) u v = Ok (r, g, b) /\
    rc = {| x0 := px; y0 := py; x1 := (px + 1)%Z; y1 := (py + 1)%Z;
            fill := rgb r g b |}.

(** The rectangles [rows] are cells of pixels of the rows from [from] on,
    and every such pixel has its cell among them. *)
Definition finest (self : Art) (from : Z) (rows : list rectangle) : Prop :=
  Forall (fun rc =>
            exists px py,
              (0 <= px < size self)%Z /\ (from <= py < size self)%Z /\
              unit_cell self px py rc) rows /\
  (forall px py,
      (0 <= px < size self)%Z -> (from <= py < size self)%Z ->
      exists rc, unit_cell self px py rc /\ In rc rows).

(** A rectangle is a cell of side [dd] inside the canvas, filled with the
    colour of the expression at the centre of the cell, a point of the
    open unit square; the colour and its string are computed without an
    exception. *)
Definition painted (self : Art) (dd : Z) (rc : rectangle) : Prop :=
  exists u v r g b,
    coordinate (size self) dd (x0 rc) = Ok u /\
    coordinate (size self) dd (y0 rc) = Ok v /\
    (-1 < u < 1)%R /\ (-1 < v < 1)%R /\
    eval_checked (art self) u v = Returns (r, g, b) /\
    rgb_checked r g b = Ok (fill rc) /\
    (0 <= x0 rc /\ x1 rc = x0 rc + dd /\ x1 rc <= size self)%Z /\
    (0 <= y0 rc /\ y1 rc = y0 rc + dd /\ y1 rc <= size self)%Z.

(** The states that the calls of [draw] go through after [redraw], on a
    canvas whose size is a multiple of 64: the cell size is one of the
    four of the passes (or 0 at the end) and divides [y], and every
    rectangle on the canvas is a cell of one of the passes. *)
Definition rendering (self : Art) : Prop :=
  (0 < size self)%Z /\ (64 | size self)%Z /\
  In (d self) [64; 16; 4; 1; 0]%Z /\
  (0 <= y self)%Z /\ (d self | y self)%Z /\
  every_node drawn_in_range (art self) /\
  Forall (fun rc => exists dd, In dd [64; 16; 4; 1]%Z /\ painted self dd rc)
         (canvas self).

End Gui.

(** ** A concrete random source

    A linear congruential generator on [Z]; it shows that [RandomSource] is
    inhabited and gives the statements below something to run on. *)
Definition lcg_next (s : Z) : Z :=
  ((1103515245 * s + 12345) mod 2147483648)%Z.

Definition lcg_randbelow (n s : Z) : Z * Z := ((s mod n)%Z, lcg_next s).

Definition lcg_random (s : Z) : R * Z :=
  ((IZR (s mod 2147483648) / 2147483648)%R, lcg_next s).

Lemma lcg_randbelow_range :
  forall n s, (0 < n)%Z -> (0 <= fst (lcg_randbelow n s) < n)%Z.
Proof. intros n s Hn; simpl; apply Z.mod_pos_bound; exact Hn. Qed.

Lemma lcg_random_range : forall s, (0 <= fst (lcg_random s) < 1)%R.
Proof.
  intros s; simpl.
  pose proof (Z.mod_pos_bound s 2147483648 eq_refl) as [Hlo Hhi].
  apply IZR_le in Hlo; apply IZR_lt in Hhi.
  split.
  - apply Rmult_le_pos; [exact Hlo | lra].
  - apply (Rmult_lt_reg_r 2147483648); [lra |].
    unfold Rdiv; rewrite Rmult_assoc, Rinv_l by lra; lra.
Qed.

#[export] Instance lcg_source : RandomSource Z := {
  randbelow := lcg_randbelow;
  randbelow_range := lcg_randbelow_range;
  random := lcg_random;
  random_range := lcg_random_range
}.

(** * Properties of the numeric helpers *)

Section NumericFacts.
Local Open Scope R_scope.

Lemma py_div_nonzero : forall a b, b <> 0 -> py_div a b = Ok (a / b).
Proof.
  intros a b Hb; unfold py_div.
  destruct (Req_dec_T b 0) as [E | _]; [contradiction | reflexivity].
Qed.

Lemma py_mod_zero : forall a, py_mod a 0 = Raise ZeroDivisionError.
Proof.
  intros a; unfold py_mod.
  destruct (Req_dec_T 0 0) as [_ | N]; [reflexivity | now elim N].
Qed.

Lemma py_mod_nonzero :
  forall a b, b <> 0 -> py_mod a b = Ok (a - b * IZR (Int_part (a / b))).
Proof.
  intros a b Hb; unfold py_mod.
  destruct (Req_dec_T b 0) as [E | _]; [contradiction | reflexivity].
Qed.

Lemma py_mod_raises_iff :
  forall a b e, py_mod a b = Raise e <-> b = 0 /\ e = ZeroDivisionError.
Proof.
  intros a b e; unfold py_mod.
  destruct (Req_dec_T b 0) as [E | N]; split.
  - intros [= <-]; now split.
  - intros [_ ->]; reflexivity.
  - discriminate.
  - intros [E _]; contradiction.
Qed.

Lemma well_denominator_pos : forall x, 0 < (1 + x * x) ^ 8.
Proof. intros x; apply pow_lt; nra. Qed.

(** The division in [well] never raises. *)
Lemma well_value : forall x, well x = Ok (1 - 2 / (1 + x * x) ^ 8).
Proof.
  intros x; unfold well.
  rewrite py_div_nonzero; [reflexivity |].
  pose proof (well_denominator_pos x); lra.
Qed.

(** [well] takes its values in the unit range. *)
Lemma well_unit : forall v w, well v = Ok w -> unit_range w.
Proof.
  intros v w; rewrite well_value; intros E.
  assert (Ew : w = 1 - 2 / (1 + v * v) ^ 8) by congruence.
  subst w; clear E; unfold unit_range.
  pose proof (well_denominator_pos v) as Hpos.
  assert (Hge : 1 <= (1 + v * v) ^ 8) by (apply pow_R1_Rle; nra).
  assert (Hq : 0 < 2 / (1 + v * v) ^ 8 <= 2).
  { split.
    - apply Rdiv_lt_0_compat; lra.
    - apply (Rmult_le_reg_r ((1 + v * v) ^ 8)); [exact Hpos |].
      unfold Rdiv; rewrite Rmult_assoc, Rinv_l by lra; lra. }
  clear Hpos Hge; set (q := 2 / (1 + v * v) ^ 8) in *; clearbody q; lra.
Qed.

Lemma Int_part_IZR : forall z, Int_part (IZR z) = z.
Proof. intros z; symmetry; apply Int_part_spec; lra. Qed.

Lemma Int_part_nonneg : forall v, 0 <= v -> (0 <= Int_part v)%Z.
Proof.
  intros v Hv.
  destruct (base_Int_part v) as [_ Hgt].
  assert (Hlt : IZR (-1) < IZR (Int_part v)) by (simpl; lra).
  apply lt_IZR in Hlt; lia.
Qed.

Lemma Int_part_neg : forall v, v < 0 -> (Int_part v < 0)%Z.
Proof.
  intros v Hv.
  destruct (base_Int_part v) as [Hle _].
  apply lt_IZR; simpl; lra.
Qed.

(** [int] and [floor] differ on negative non-integers only, and the clamp
    sends both to 0 there. *)
Lemma rgb_channel_floor : forall v, rgb_channel v = spec_channel v.
Proof.
  intros v; unfold rgb_channel, spec_channel, clamp, py_int.
  destruct (Rle_dec 0 (128 * (v + 1))) as [Hpos | Hneg]; [reflexivity |].
  assert (Hlt : 128 * (v + 1) < 0) by lra.
  pose proof (Int_part_neg Hlt).
  assert (Hn : 0 <= - (128 * (v + 1))) by lra.
  pose proof (Int_part_nonneg Hn).
  lia.
Qed.

Lemma rgb_channel_range : forall v, (0 <= rgb_channel v <= 255)%Z.
Proof. intros v; unfold rgb_channel; lia. Qed.

Lemma rgb_channel_low : forall v, v <= -1 -> rgb_channel v = 0%Z.
Proof.
  intros v Hv; rewrite rgb_channel_floor; unfold spec_channel, clamp.
  destruct (Req_dec_T v (-1)) as [-> | Hne].
  - replace (128 * (-1 + 1)) with (IZR 0) by (simpl; lra).
    rewrite Int_part_IZR; reflexivity.
  - assert (Hlt : 128 * (v + 1) < 0) by lra.
    pose proof (Int_part_neg Hlt); lia.
Qed.

Lemma rgb_channel_high : forall v, 1 <= v -> rgb_channel v = 255%Z.
Proof.
  intros v Hv; rewrite rgb_channel_floor; unfold spec_channel, clamp.
  destruct (base_Int_part (128 * (v + 1))) as [_ Hgt].
  assert (Hlt : IZR 255 < IZR (Int_part (128 * (v + 1)))) by (simpl; lra).
  apply lt_IZR in Hlt; lia.
Qed.

(** ** The finite range *)

Lemma finite_true : forall v, finite v = true <-> Rabs v < float_overflow.
Proof.
  intros v; unfold finite.
  destruct (Rlt_dec (Rabs v) float_overflow); split; auto; discriminate.
Qed.

Lemma finite_false : forall v, finite v = false <-> float_overflow <= Rabs v.
Proof.
  intros v; unfold finite.
  destruct (Rlt_dec (Rabs v) float_overflow); split; auto;
    try discriminate; lra.
Qed.

Lemma finite_le :
  forall v b,
    (b < 2 ^ 1024 - 2 ^ 970)%Z -> Rabs v <= IZR b -> finite v = true.
Proof.
  intros v b Hb Hv; apply finite_true.
  apply Rle_lt_trans with (IZR b); [exact Hv |].
  unfold float_overflow; apply IZR_lt; exact Hb.
Qed.

Lemma finite_ge :
  forall v b,
    (2 ^ 1024 - 2 ^ 970 <= b)%Z -> IZR b <= Rabs v -> finite v = false.
Proof.
  intros v b Hb Hv; apply finite_false.
  apply Rle_trans with (IZR b); [| exact Hv].
  unfold float_overflow; apply IZR_le; exact Hb.
Qed.

Lemma Rabs_IZR_nonneg : forall z, (0 <= z)%Z -> Rabs (IZR z) = IZR z.
Proof.
  intros z Hz; apply Rabs_right, Rle_ge.
  change 0 with (IZR 0); apply IZR_le; exact Hz.
Qed.

(** A channel of [rgb] whose scaled value is a finite float is converted
    without an exception, to the value of [rgb_channel]. *)
Lemma rgb_channel_checked_finite :
  forall v,
    finite (128 * (v + 1)) = true ->
    rgb_channel_checked v = Ok (rgb_channel v).
Proof.
  intros v Hf; unfold rgb_channel_checked, int_checked.
  rewrite Hf; reflexivity.
Qed.

Lemma rgb_channel_checked_overflow :
  forall v,
    finite (128 * (v + 1)) = false ->
    rgb_channel_checked v = Raise OverflowError.
Proof.
  intros v Hf; unfold rgb_channel_checked, int_checked.
  rewrite Hf; reflexivity.
Qed.

Lemma rgb_checked_finite :
  forall r g b,
    finite (128 * (r + 1)) = true -> finite (128 * (g + 1)) = true ->
    finite (128 * (b + 1)) = true ->
    rgb_checked r g b = Ok (rgb r g b).
Proof.
  intros r g b Hr Hg Hb; unfold rgb_checked.
  rewrite !rgb_channel_checked_finite by assumption; reflexivity.
Qed.

Lemma finite_scaled :
  forall v, Rabs v <= 1000 -> finite (128 * (v + 1)) = true.
Proof.
  intros v Hv; apply (@finite_le _ 128128%Z); [vm_compute; reflexivity |].
  assert (Hb : -1000 <= v <= 1000)
    by (unfold Rabs in Hv; destruct (Rcase_abs v); lra).
  apply Rabs_le; lra.
Qed.

(** The floor of [128 * (v + 1)] on the unit range, after the clamp. *)
Lemma rgb_channel_near :
  forall v eps,
    0 < eps -> -1 <= v <= 1 ->
    128 * (v + 1) - 1 - eps < IZR (rgb_channel v) <= 128 * (v + 1) + eps.
Proof.
  intros v eps Heps Hv; rewrite rgb_channel_floor; unfold spec_channel, clamp.
  destruct (base_Int_part (128 * (v + 1))) as [Hle Hgt].
  set (z := Int_part (128 * (v + 1))) in *.
  assert (H0 : (0 <= z)%Z) by (apply Int_part_nonneg; lra).
  assert (H1 : (z <= 256)%Z) by (apply le_IZR; lra).
  destruct (Z_le_gt_dec z 255) as [Hs | Hb].
  - replace (Z.max 0 (Z.min 255 z)) with z by lia; lra.
  - replace (Z.max 0 (Z.min 255 z)) with 255%Z by lia.
    assert (E : z = 256%Z) by lia.
    rewrite E in Hle, Hgt; lra.
Qed.

(** C3, as stated, fails: at 0 the quotient is [2 / 1], so [well(0)] is not
    1. *)
Lemma well_at_zero_is_not_one : well 0 <> Ok 1.
Proof. rewrite well_value; intros [= E]; lra. Qed.

(** C3, amended: [well(0) == -1]: at 0 the formula [1 - 2/(1+v*v)^8] is
    [1 - 2/1], computed without rounding and without an exception. *)
Theorem well_at_zero :
  well 0 = Ok (-1) /\ well_checked 0 = Returns (-1).
Proof.
  assert (E : well 0 = Ok (-1)) by (rewrite well_value; f_equal; lra).
  split; [exact E |].
  unfold well_checked.
  rewrite (@finite_le (0 * 0) 0%Z), (@finite_le ((1 + 0 * 0) ^ 8) 1%Z);
    [rewrite E; reflexivity | | | |]; try (vm_compute; reflexivity).
  - replace ((1 + 0 * 0) ^ 8) with 1 by ring.
    rewrite Rabs_R1; lra.
  - replace (0 * 0) with 0 by ring.
    rewrite Rabs_R0; lra.
Qed.

(** C7, as stated, fails: not every channel value is clamped.  At
    [v = 1e308] the product [128 * (v + 1)] is an infinity, and [int]
    rejects it with [OverflowError]. *)
Lemma rgb_rejects_overflow :
  rgb_checked (IZR (10 ^ 308)) 0 0 = Raise OverflowError.
Proof.
  unfold rgb_checked.
  rewrite rgb_channel_checked_overflow; [reflexivity |].
  apply (@finite_ge _ (128 * (10 ^ 308 + 1))%Z); [vm_compute; discriminate |].
  rewrite mult_IZR, plus_IZR.
  rewrite Rabs_right; [lra |].
  apply Rle_ge.
  assert (H : 0 <= IZR (10 ^ 308)) by (apply IZR_le; vm_compute; discriminate).
  lra.
Qed.

(** C7, amended: for a channel value [v] whose scaled value [128 * (v + 1)]
    is a finite float, [rgb] computes [max(0, min(255, int(128 * (v + 1))))]
    without raising: an 8-bit value, 0 for [v <= -1], 255 for [v >= 1], and
    for [v] in [[-1, 1]] the floor of [128 * (v + 1)] up to the rounding of
    the scaled value (the bounds leave [2^-40] for it); when the scaled
    value overflows, [int] raises [OverflowError].  The all-(-5) and all-5
    inputs give the minimum and the maximum code. *)
Theorem rgb_clamps :
  (forall v,
      finite (128 * (v + 1)) = true ->
      exists c,
        rgb_channel_checked v = Ok c /\
        c = Z.max 0 (Z.min 255 (py_int (128 * (v + 1)))) /\
        (0 <= c <= 255)%Z /\
        (v <= -1 -> c = 0%Z) /\
        (1 <= v -> c = 255%Z) /\
        (-1 <= v <= 1 ->
         128 * (v + 1) - 1 - / 2 ^ 40 < IZR c <= 128 * (v + 1) + / 2 ^ 40)) /\
  (forall v,
      finite (128 * (v + 1)) = false ->
      rgb_channel_checked v = Raise OverflowError) /\
  rgb_checked (-5) (-5) (-5) = Ok "#000000"%string /\
  rgb_checked 5 5 5 = Ok "#ffffff"%string.
Proof.
  split; [| split; [| split]].
  - intros v Hf; exists (rgb_channel v).
    split; [apply rgb_channel_checked_finite; exact Hf |].
    split; [reflexivity |].
    split; [apply rgb_channel_range |].
    split; [apply rgb_channel_low |].
    split; [apply rgb_channel_high |].
    apply rgb_channel_near.
    apply Rinv_0_lt_compat, pow_lt; lra.
  - exact rgb_channel_checked_overflow.
  - assert (E : rgb_channel (-5) = 0%Z) by (apply rgb_channel_low; lra).
    rewrite rgb_checked_finite by (apply finite_scaled, Rabs_le; lra).
    unfold rgb; rewrite E; reflexivity.
  - assert (E : rgb_channel 5 = 255%Z) by (apply rgb_channel_high; lra).
    rewrite rgb_checked_finite by (apply finite_scaled, Rabs_le; lra).
    unfold rgb; rewrite E; reflexivity.
Qed.

End NumericFacts.

(** * Properties of [eval] *)

Section EvalFacts.
Local Open Scope R_scope.

(** Read over the reals, no [eval] method raises: the only operation that
    could is the division in [well], whose denominator is positive, and
    the remainders in [Mod] sit inside the [try]. *)
Lemma eval_total : forall e x y, exists c, eval e x y = Ok c.
Proof.
  induction e as [| | c | e1 IH1 e2 IH2 | e1 IH1 e2 IH2 | e1 IH1 e2 IH2
                 | e IH | e IH | e IH phase freq
                 | t l IHl e1 IH1 e2 IH2 | w IHw e1 IH1 e2 IH2];
    intros x y; simpl;
    repeat match goal with
           | IH : forall x y, exists c, eval ?e x y = Ok c |- _ =>
               destruct (IH x y) as [[[? ?] ?] ->]; clear IH
           end;
    simpl; rewrite ?well_value; simpl; eexists; reflexivity.
Qed.

Lemma eval_channels :
  forall e x y, exists r g b, eval e x y = Ok (r, g, b).
Proof.
  intros e x y; destruct (eval_total e x y) as [[[r g] b] E].
  now exists r, g, b.
Qed.

(** Inside the finite range the two readings agree: a result that
    [eval_checked] returns is the result of [eval]. *)
Lemma eval_checked_sound :
  forall e x y c, eval_checked e x y = Returns c -> eval e x y = Ok c.
Proof.
  induction e as [| | c0 | e1 IH1 e2 IH2 | e1 IH1 e2 IH2 | e1 IH1 e2 IH2
                 | e IH | e IH | e IH phase freq
                 | t l IHl e1 IH1 e2 IH2 | w IHw e1 IH1 e2 IH2];
    intros x y c E; cbn [eval_checked eval] in *;
    repeat match goal with
           | IH : forall x y c, eval_checked ?e x y = Returns c -> _,
             H : context [eval_checked ?e ?x ?y] |- _ =>
               let E' := fresh "E" in
               destruct (eval_checked e x y) as [[[? ?] ?] | ? |] eqn:E';
               cbn [out_bind] in H; try discriminate H;
               rewrite (IH _ _ _ E'); clear IH; cbn [res_bind]
           end;
    unfold mul_checked, well_checked, tent_checked, sin_checked in *;
    repeat match goal with
           | H : context [if finite ?v then _ else _] |- _ =>
               destruct (finite v); cbn [out_bind of_res andb] in H;
               try discriminate H
           | H : context [if ?a && ?b then _ else _] |- _ =>
               destruct a, b; cbn [out_bind of_res andb] in H;
               try discriminate H
           end;
    rewrite ?well_value in *; cbn [out_bind of_res res_bind] in *;
    first [ congruence
          | match goal with
            | H : Returns _ = Returns _ |- _ => injection H as <-
            end; reflexivity ].
Qed.

(** C1: once both children of a [Mod] node have returned their triples,
    [Mod.eval] answers [(0,0,0)] for the whole triple as soon as one of the
    three remainders raises (in particular when a channel of the second
    child is 0), and the channel-wise remainders when none does; in either
    case it returns a value and raises nothing. *)
Theorem Mod_eval_fallback :
  forall e1 e2 x y r1 g1 b1 r2 g2 b2,
    eval_checked e1 x y = Returns (r1, g1, b1) ->
    eval_checked e2 x y = Returns (r2, g2, b2) ->
    (forall ex,
        py_mod r1 r2 = Raise ex \/ py_mod g1 g2 = Raise ex \/
        py_mod b1 b2 = Raise ex ->
        eval_checked (Mod e1 e2) x y = Returns (0, 0, 0)) /\
    (r2 = 0 \/ g2 = 0 \/ b2 = 0 ->
     eval_checked (Mod e1 e2) x y = Returns (0, 0, 0)) /\
    (forall r3 g3 b3,
        py_mod r1 r2 = Ok r3 -> py_mod g1 g2 = Ok g3 ->
        py_mod b1 b2 = Ok b3 ->
        eval_checked (Mod e1 e2) x y = Returns (r3, g3, b3)) /\
    (r2 <> 0 -> g2 <> 0 -> b2 <> 0 ->
     exists r3 g3 b3,
       py_mod r1 r2 = Ok r3 /\ py_mod g1 g2 = Ok g3 /\
       py_mod b1 b2 = Ok b3 /\
       eval_checked (Mod e1 e2) x y = Returns (r3, g3, b3)) /\
    (exists c, eval_checked (Mod e1 e2) x y = Returns c).
Proof.
  intros e1 e2 x y r1 g1 b1 r2 g2 b2 E1 E2.
  assert (Hzero : r2 = 0 \/ g2 = 0 \/ b2 = 0 ->
                  eval_checked (Mod e1 e2) x y = Returns (0, 0, 0)).
  { intros Hz; cbn [eval_checked]; rewrite E1, E2; cbn [out_bind].
    unfold mod_try, py_mod.
    destruct (Req_dec_T r2 0); simpl; [reflexivity |].
    destruct (Req_dec_T g2 0); simpl; [reflexivity |].
    destruct (Req_dec_T b2 0); simpl; [reflexivity |].
    destruct Hz as [Hz | [Hz | Hz]]; contradiction. }
  assert (Hok : forall r3 g3 b3,
             py_mod r1 r2 = Ok r3 -> py_mod g1 g2 = Ok g3 ->
             py_mod b1 b2 = Ok b3 ->
             eval_checked (Mod e1 e2) x y = Returns (r3, g3, b3)).
  { intros r3 g3 b3 Hr Hg Hb; cbn [eval_checked].
    rewrite E1, E2; cbn [out_bind]; unfold mod_try.
    rewrite Hr; simpl; rewrite Hg; simpl; rewrite Hb; reflexivity. }
  split; [| split; [exact Hzero | split; [exact Hok | split]]].
  - intros ex Hraise; apply Hzero.
    destruct Hraise as [Hr | [Hr | Hr]];
      apply py_mod_raises_iff in Hr; tauto.
  - intros Hr Hg Hb; eexists _, _, _.
    split; [apply py_mod_nonzero; exact Hr |].
    split; [apply py_mod_nonzero; exact Hg |].
    split; [apply py_mod_nonzero; exact Hb |].
    apply Hok; apply py_mod_nonzero; assumption.
  - cbn [eval_checked]; rewrite E1, E2; cbn [out_bind].
    eexists; reflexivity.
Qed.

(** C2: once its three children have returned, [Mix.eval] returns the
    plain 0.5/0.5 average of what its second and third children return;
    the first child is evaluated, but neither its value nor the weight
    computed from it reaches the result, which is the same for every first
    child that returns. *)
Theorem Mix_eval_unweighted :
  forall w e1 e2 x y cw r1 g1 b1 r2 g2 b2,
    eval_checked w x y = Returns cw ->
    eval_checked e1 x y = Returns (r1, g1, b1) ->
    eval_checked e2 x y = Returns (r2, g2, b2) ->
    eval_checked (Mix w e1 e2) x y =
      Returns (5 / 10 * r1 + (1 - 5 / 10) * r2,
               5 / 10 * g1 + (1 - 5 / 10) * g2,
               5 / 10 * b1 + (1 - 5 / 10) * b2) /\
    eval_checked (Mix w e1 e2) x y =
      Returns (5 / 10 * r1 + 5 / 10 * r2, 5 / 10 * g1 + 5 / 10 * g2,
               5 / 10 * b1 + 5 / 10 * b2) /\
    (forall w' cw',
        eval_checked w' x y = Returns cw' ->
        eval_checked (Mix w' e1 e2) x y = eval_checked (Mix w e1 e2) x y).
Proof.
  intros w e1 e2 x y cw r1 g1 b1 r2 g2 b2 Ew E1 E2.
  assert (Hmix : forall w0 c0,
             eval_checked w0 x y = Returns c0 ->
             eval_checked (Mix w0 e1 e2) x y =
             Returns (average (r1, g1, b1) (r2, g2, b2) (5 / 10))).
  { intros w0 [[wr wg] wb] E0; cbn [eval_checked].
    rewrite E0, E1, E2; reflexivity. }
  split; [| split].
  - rewrite (Hmix w cw Ew); reflexivity.
  - rewrite (Hmix w cw Ew); unfold average.
    replace (1 - 5 / 10) with (5 / 10) by lra; reflexivity.
  - intros w' cw' Ew'; rewrite (Hmix w' cw' Ew'), (Hmix w cw Ew).
    reflexivity.
Qed.

(** What [math.sin] is applied to is a finite float as long as phase and
    frequency are in the range they are drawn from and the child's channel
    is below [1e300] in magnitude. *)
Lemma sin_checked_drawn :
  forall phase freq v,
    0 <= phase <= 4 -> 1 <= freq <= 6 -> Rabs v <= IZR (10 ^ 300) ->
    sin_checked phase freq v = Returns (sin (phase + freq * v)).
Proof.
  intros phase freq v Hp Hf Hv; unfold sin_checked.
  assert (Hb : 0 <= IZR (10 ^ 300)) by (apply IZR_le; vm_compute; discriminate).
  assert (Hfv : Rabs (freq * v) <= 6 * IZR (10 ^ 300)).
  { rewrite Rabs_mult, (Rabs_right freq) by lra.
    pose proof (Rabs_pos v).
    set (a := Rabs v) in *; set (m := IZR (10 ^ 300)) in *.
    clearbody a m; nra. }
  rewrite (@finite_le (freq * v) (6 * 10 ^ 300)%Z);
    [| vm_compute; reflexivity | rewrite mult_IZR; exact Hfv].
  rewrite (@finite_le (phase + freq * v) (4 + 6 * 10 ^ 300)%Z);
    [reflexivity | vm_compute; reflexivity |].
  rewrite plus_IZR, mult_IZR.
  apply Rle_trans with (Rabs phase + Rabs (freq * v)); [apply Rabs_triang |].
  rewrite (Rabs_right phase) by lra.
  set (a := Rabs (freq * v)) in *; set (m := IZR (10 ^ 300)) in *.
  clearbody a m; lra.
Qed.




End EvalFacts.

(** * Properties of the lists that [generate] works on *)

Section BudgetFacts.
Local Open Scope Z_scope.

Lemma sorted_ascending : forall l, LocallySorted Z.le (sorted l).
Proof.
  intros l; unfold sorted.
  induction (ZSort.LocallySorted_sort l) as [| a | a b l' Hs IH Hab];
    constructor; auto.
  apply Z.leb_le; exact Hab.
Qed.

Lemma sorted_permutation : forall l, Permutation l (sorted l).
Proof. intros l; apply ZSort.Permuted_sort. Qed.

Lemma sorted_length : forall l, List.length (sorted l) = List.length l.
Proof.
  intros l; symmetry; apply Permutation_length, sorted_permutation.
Qed.

Lemma sorted_Forall :
  forall (P : Z -> Prop) l, Forall P l -> Forall P (sorted l).
Proof.
  intros P l Hl; apply (Permutation_Forall (sorted_permutation l) Hl).
Qed.

Lemma loop_budgets_length :
  forall k js i, List.length (loop_budgets k js i) = S (List.length js).
Proof.
  intros k js; induction js as [| j js IH]; intros i; simpl;
    [reflexivity | now rewrite IH].
Qed.

(** With cut points in [[0, k)], in ascending order from [i] on, every size
    handed down lies in [[0, k)]. *)
Lemma loop_budgets_range :
  forall k js i,
    LocallySorted Z.le (i :: js) ->
    Forall (fun j => 0 <= j < k) (i :: js) ->
    Forall (fun b => 0 <= b < k) (loop_budgets k js i).
Proof.
  intros k js; induction js as [| j js IH]; intros i Hs Hr; simpl.
  - inversion Hr as [| ? ? Hi _]; subst.
    constructor; [lia | constructor].
  - inversion Hs as [| | ? ? ? Hs' Hij]; subst.
    inversion Hr as [| ? ? Hi Hr']; subst.
    inversion Hr' as [| ? ? Hj _]; subst.
    constructor; [lia | apply IH; assumption].
Qed.

Lemma LocallySorted_from_zero :
  forall l, LocallySorted Z.le l -> Forall (fun j => 0 <= j) l ->
            LocallySorted Z.le (0 :: l).
Proof.
  intros [| a l] Hs Hl; constructor; [exact Hs |].
  inversion Hl; assumption.
Qed.

Lemma child_budgets_range :
  forall k js,
    0 < k -> Forall (fun j => 0 <= j < k) js ->
    Forall (fun b => 0 <= b < k) (loop_budgets k (sorted js) 0).
Proof.
  intros k js Hk Hjs.
  pose proof (sorted_Forall Hjs) as Hsorted.
  apply loop_budgets_range.
  - apply LocallySorted_from_zero; [apply sorted_ascending |].
    eapply Forall_impl; [| exact Hsorted]; simpl; intros; lia.
  - constructor; [lia | exact Hsorted].
Qed.

(** The loop hands down exactly the sizes of the description. *)
Lemma loop_budgets_nth :
  forall k cs i,
    loop_budgets k cs i =
    map (fun n =>
           if (n <=? List.length cs)%nat
           then nth n (i :: cs) 0 - nth (n - 1) (i :: cs) 0
           else k - 1 - nth (List.length cs) (i :: cs) 0)
        (List.seq 1 (S (List.length cs))).
Proof.
  intros k cs; induction cs as [| j cs IH]; intros i.
  - reflexivity.
  - cbn [loop_budgets]; rewrite IH.
    cbn [List.length].
    change (List.seq 1 (S (S (List.length cs))))
      with (1%nat :: List.seq 2 (S (List.length cs))).
    cbn [map]; f_equal.
    rewrite <- (seq_shift (S (List.length cs)) 1), map_map.
    apply map_ext_in; intros n Hn.
    apply in_seq in Hn.
    change (S n <=? S (List.length cs))%nat
      with (n <=? List.length cs)%nat.
    destruct n as [| n]; [lia |].
    cbn [Nat.sub nth]; rewrite Nat.sub_0_r; reflexivity.
Qed.

Lemma loop_budgets_spec :
  forall k cs, loop_budgets k cs 0 = spec_budgets k cs.
Proof.
  intros k cs; rewrite loop_budgets_nth; unfold spec_budgets.
  apply map_ext_in; intros n Hn; apply in_seq in Hn.
  unfold spec_budget.
  assert (Hcut : forall m, nth m (0 :: cs) 0 = cut_point cs m)
    by (intros [| m]; reflexivity).
  rewrite !Hcut; reflexivity.
Qed.

End BudgetFacts.

(** * Properties of the tree shape *)

Lemma arity_children :
  forall n, Z.of_nat (List.length (children n)) = arity (class_of n).
Proof. intros n; destruct n; reflexivity. Qed.

Lemma arity_respected_node : forall n, arity_respected n.
Proof.
  intros n; split; [apply arity_children |].
  destruct n; simpl; intros Ha; try reflexivity; discriminate Ha.
Qed.

Lemma operators0_table :
  operators0 = [ClsVariableX; ClsVariableY; ClsConstant].
Proof. reflexivity. Qed.

Lemma operators1_table :
  operators1 =
  [ClsSum; ClsProduct; ClsMod; ClsSin; ClsTent; ClsWell; ClsLevel; ClsMix].
Proof. reflexivity. Qed.

Lemma operators0_arity : forall op, In op operators0 <-> arity op = 0%Z.
Proof.
  intros op; unfold operators0; rewrite filter_In; split.
  - intros [_ Ha]; apply Z.eqb_eq; exact Ha.
  - intros Ha; split; [destruct op; simpl; tauto | now apply Z.eqb_eq].
Qed.

Lemma operators1_arity : forall op, In op operators1 <-> (arity op > 0)%Z.
Proof.
  intros op; unfold operators1; rewrite filter_In; split.
  - intros [_ Ha]; apply Z.gtb_gt; exact Ha.
  - intros Ha; split; [destruct op; simpl; tauto | now apply Z.gtb_gt].
Qed.

Lemma operators0_NoDup : NoDup operators0.
Proof.
  rewrite operators0_table.
  repeat (constructor; [simpl; intuition discriminate |]); constructor.
Qed.

Lemma operators1_NoDup : NoDup operators1.
Proof.
  rewrite operators1_table.
  repeat (constructor; [simpl; intuition discriminate |]); constructor.
Qed.

(** * Properties of the generator monad, [construct] and [generate] *)

Section GenerateFacts.
Context {G : Type} `{RandomSource G}.
Local Open Scope Z_scope.

Lemma bind_Ok :
  forall (A B : Type) (m : M G A) (k : A -> M G B) g a g',
    m g = (Ok a, g') -> bind m k g = k a g'.
Proof. intros A B m k g a g' E; unfold bind; rewrite E; reflexivity. Qed.

Ltac step E := erewrite bind_Ok by exact E.

Lemma bind_ret_r :
  forall (A : Type) (m : M G A) g, bind m (fun a => ret a) g = m g.
Proof.
  intros A m g; unfold bind, ret.
  destruct (m g) as [[a | e] g']; reflexivity.
Qed.

Lemma bind_ext :
  forall (A B : Type) (m : M G A) (k k' : A -> M G B) g,
    (forall a g', k a g' = k' a g') -> bind m k g = bind m k' g.
Proof.
  intros A B m k k' g Hk; unfold bind.
  destruct (m g) as [[a | e] g']; [apply Hk | reflexivity].
Qed.

Lemma mapM_ext_in :
  forall (A B : Type) (f f' : A -> M G B) l,
    (forall a g, In a l -> f a g = f' a g) ->
    forall g, mapM f l g = mapM f' l g.
Proof.
  intros A B f f' l; induction l as [| a l IH]; intros Hf g; simpl.
  - reflexivity.
  - unfold bind at 1 3; rewrite (Hf a g) by now left.
    destruct (f' a g) as [[b | e] g1]; [| reflexivity].
    unfold bind; rewrite IH; [reflexivity |].
    intros a' g' Hin; apply Hf; now right.
Qed.

Lemma mapM_Ok :
  forall (A B : Type) (f : A -> M G B) l,
    (forall a g, In a l -> exists b g', f a g = (Ok b, g')) ->
    forall g, exists bs g',
      mapM f l g = (Ok bs, g') /\ List.length bs = List.length l.
Proof.
  intros A B f l; induction l as [| a l IH]; intros Hf g; simpl.
  - exists [], g; split; reflexivity.
  - destruct (Hf a g (or_introl eq_refl)) as (b & g1 & Eb).
    destruct (IH (fun a' g' Hin => Hf a' g' (or_intror Hin)) g1)
      as (bs & g2 & Ebs & Hlen).
    exists (b :: bs), g2; split; [| simpl; now rewrite Hlen].
    step Eb; step Ebs; reflexivity.
Qed.

Lemma uniform_Ok :
  forall a b g, exists u g', uniform a b g = (Ok u, g').
Proof.
  intros a b g; unfold uniform.
  destruct (random g) as [u g']; now eexists _, _.
Qed.

Lemma randrange_Ok :
  forall k g, 0 < k ->
    exists j g', randrange k g = (Ok j, g') /\ 0 <= j < k.
Proof.
  intros k g Hk; unfold randrange.
  replace (0 <? k) with true by (symmetry; apply Z.ltb_lt; exact Hk).
  pose proof (randbelow_range g Hk) as Hr.
  destruct (randbelow k g) as [j g']; exists j, g'; split; auto.
Qed.

Lemma randranges_Ok :
  forall k n g, 0 < k ->
    exists js g',
      randranges k n g = (Ok js, g') /\ List.length js = n /\
      Forall (fun j => 0 <= j < k) js.
Proof.
  intros k n; induction n as [| n IH]; intros g Hk; simpl.
  - exists [], g; repeat split; constructor.
  - destruct (randrange_Ok g Hk) as (j & g1 & Ej & Hj).
    destruct (IH g1 Hk) as (js & g2 & Ejs & Hlen & Hjs).
    exists (j :: js), g2; repeat split.
    + step Ej; step Ejs; reflexivity.
    + simpl; now rewrite Hlen.
    + constructor; assumption.
Qed.

Lemma choice_Ok :
  forall (A : Type) (seq : list A) (d : A) g,
    seq <> [] ->
    exists i g',
      randbelow (Z.of_nat (List.length seq)) g = (i, g') /\
      0 <= i < Z.of_nat (List.length seq) /\
      choice seq g = (Ok (nth (Z.to_nat i) seq d), g') /\
      In (nth (Z.to_nat i) seq d) seq.
Proof.
  intros A seq d g Hne; unfold choice.
  destruct seq as [| a seq']; [congruence |].
  assert (Hlen : 0 < Z.of_nat (List.length (a :: seq'))) by (simpl; lia).
  pose proof (randbelow_range g Hlen) as Hr.
  destruct (randbelow (Z.of_nat (List.length (a :: seq'))) g) as [i g'].
  simpl fst in Hr.
  exists i, g'; repeat split; try lia.
  - f_equal; f_equal; apply nth_indep; lia.
  - apply nth_In; lia.
Qed.

(** The call [op( *args )] succeeds exactly when [args] has [arity op]
    elements, and the instance then holds [args]. *)
Lemma construct_Ok :
  forall op args g,
    Z.of_nat (List.length args) = arity op ->
    exists t g',
      construct op args g = (Ok t, g') /\
      class_of t = op /\ children t = args.
Proof.
  intros op args g Hlen.
  destruct op; simpl in Hlen;
    destruct args as [| a1 [| a2 [| a3 [| a4 args]]]];
    simpl in Hlen; try lia; simpl;
    try (eexists _, _; repeat split; reflexivity).
  - destruct (uniform_Ok 0 1 g) as (r & g1 & E1).
    destruct (uniform_Ok 0 1 g1) as (gr & g2 & E2).
    destruct (uniform_Ok 0 1 g2) as (b & g3 & E3).
    exists (Constant (r, gr, b)), g3.
    step E1; step E2; step E3.
    repeat split.
  - destruct (uniform_Ok 0 PI g) as (phase & g1 & E1).
    destruct (uniform_Ok 1 6 g1) as (freq & g2 & E2).
    exists (Sin a1 phase freq), g2.
    step E1; step E2.
    repeat split.
  - destruct (uniform_Ok (-1) 1 g) as (t & g1 & E1).
    exists (Level t a1 a2 a3), g1.
    step E1.
    repeat split.
Qed.

Lemma construct_TypeError :
  forall op args g,
    Z.of_nat (List.length args) <> arity op ->
    construct op args g = (Raise TypeError, g).
Proof.
  intros op args g Hlen.
  destruct op; simpl in Hlen;
    destruct args as [| a1 [| a2 [| a3 [| a4 args]]]];
    simpl in Hlen; try lia; reflexivity.
Qed.

(** The loop runs the recursive call on the sizes of [loop_budgets], in
    order, and collects the results after [args]. *)
Lemma gen_args_mapM :
  forall (rec : Z -> M G expr) k js i args g,
    gen_args rec k js i args g =
    bind (mapM rec (loop_budgets k js i)) (fun es => ret (args ++ es)) g.
Proof.
  intros rec k js; induction js as [| j js IH]; intros i args g; simpl.
  - unfold bind, ret.
    destruct (rec (k - 1 - i) g) as [[e | ex] g']; reflexivity.
  - unfold bind at 1 2 3.
    destruct (rec (j - i) g) as [[e | ex] g1]; [| reflexivity].
    rewrite IH; unfold bind, ret.
    destruct (mapM rec (loop_budgets k js j) g1) as [[es | ex] g2];
      [| reflexivity].
    now rewrite <- app_assoc.
Qed.

Lemma gen_args_from_empty :
  forall (rec : Z -> M G expr) k js g,
    gen_args rec k js 0 [] g = mapM rec (loop_budgets k js 0) g.
Proof.
  intros rec k js g; rewrite gen_args_mapM; apply bind_ret_r.
Qed.

Lemma construct_inv :
  forall op args g t g',
    construct op args g = (Ok t, g') ->
    class_of t = op /\ children t = args /\
    Z.of_nat (List.length args) = arity op.
Proof.
  intros op args g t g' E.
  destruct (Z.eq_dec (Z.of_nat (List.length args)) (arity op)) as [Hl | Hl].
  - destruct (construct_Ok op args g Hl) as (t0 & g0 & E0 & Hc & Hch).
    rewrite E0 in E; injection E as <- <-; auto.
  - rewrite (construct_TypeError op args g Hl) in E; discriminate E.
Qed.

(** [generate] on a size that is used up: one draw picks the class of the
    leaf. *)
Lemma generate_body_leaf :
  forall (rec : Z -> M G expr) k g,
    k <= 0 ->
    exists i g1 t g',
      randbelow 3 g = (i, g1) /\ 0 <= i < 3 /\
      class_of t = nth (Z.to_nat i) operators0 ClsVariableX /\
      children t = [] /\ arity (class_of t) = 0 /\
      construct (class_of t) [] g1 = (Ok t, g') /\
      generate_body rec k g = (Ok t, g').
Proof.
  intros rec k g Hk; unfold generate_body.
  replace (k <=? 0) with true by (symmetry; apply Z.leb_le; exact Hk).
  destruct (@choice_Ok _ operators0 ClsVariableX g)
    as (i & g1 & Ei & Hi & Ec & Hin); [discriminate |].
  change (Z.of_nat (List.length operators0)) with 3 in Ei, Hi.
  apply operators0_arity in Hin.
  destruct (construct_Ok (nth (Z.to_nat i) operators0 ClsVariableX) [] g1)
    as (t & g' & Et & Hc & Hch); [rewrite Hin; reflexivity |].
  exists i, g1, t, g'; rewrite Hc; repeat split; try assumption; try lia.
  step Ec; exact Et.
Qed.

(** [generate] on a positive size, for a recursive call that returns on
    every size in [[0, k)]. *)
Lemma generate_body_node :
  forall (rec : Z -> M G expr) k g,
    0 < k ->
    (forall b g0, 0 <= b < k -> exists t g', rec b g0 = (Ok t, g')) ->
    exists i g1 js g2 args g3 t g4,
      randbelow 8 g = (i, g1) /\ 0 <= i < 8 /\
      class_of t = nth (Z.to_nat i) operators1 ClsMix /\
      arity (class_of t) > 0 /\
      randranges k (Z.to_nat (arity (class_of t) - 1)) g1 = (Ok js, g2) /\
      Forall (fun j => 0 <= j < k) js /\
      mapM rec (loop_budgets k (sorted js) 0) g2 = (Ok args, g3) /\
      construct (class_of t) args g3 = (Ok t, g4) /\
      children t = args /\
      generate_body rec k g = (Ok t, g4).
Proof.
  intros rec k g Hk Hrec; unfold generate_body.
  replace (k <=? 0) with false by (symmetry; apply Z.leb_gt; exact Hk).
  destruct (@choice_Ok _ operators1 ClsMix g)
    as (i & g1 & Ei & Hi & Ec & Hin); [discriminate |].
  change (Z.of_nat (List.length operators1)) with 8 in Ei, Hi.
  apply operators1_arity in Hin.
  set (op := nth (Z.to_nat i) operators1 ClsMix) in *.
  destruct (randranges_Ok (Z.to_nat (arity op - 1)) g1 Hk)
    as (js & g2 & Ejs & Hlen & Hjs).
  pose proof (child_budgets_range Hk Hjs) as Hbs.
  destruct (@mapM_Ok _ _ rec (loop_budgets k (sorted js) 0)) with (g := g2)
    as (args & g3 & Eargs & Hargs).
  { intros b g0 Hin'; apply Hrec.
    exact (proj1 (Forall_forall _ _) Hbs b Hin'). }
  rewrite loop_budgets_length, sorted_length, Hlen in Hargs.
  destruct (construct_Ok op args g3) as (t & g4 & Et & Hc & Hch);
    [rewrite Hargs; lia |].
  exists i, g1, js, g2, args, g3, t, g4; rewrite Hc.
  repeat split; try assumption; try lia.
  step Ec; step Ejs.
  unfold bind; rewrite gen_args_from_empty, Eargs; exact Et.
Qed.

(** The recursive call is used on sizes in [[0, k)] only. *)
Lemma generate_body_ext :
  forall (rec rec' : Z -> M G expr) k g,
    (forall b g0, 0 <= b < k -> rec b g0 = rec' b g0) ->
    generate_body rec k g = generate_body rec' k g.
Proof.
  intros rec rec' k g Hext; unfold generate_body.
  destruct (Z.leb_spec k 0) as [Hk | Hk]; [reflexivity |].
  apply bind_ext; intros op g1.
  destruct (randranges_Ok (Z.to_nat (arity op - 1)) g1 Hk)
    as (js & g2 & Ejs & _ & Hjs).
  pose proof (child_budgets_range Hk Hjs) as Hbs.
  unfold bind; rewrite Ejs, !gen_args_from_empty.
  rewrite (@mapM_ext_in _ _ rec rec'); [reflexivity |].
  intros b g0 Hin; apply Hext.
  exact (proj1 (Forall_forall _ _) Hbs b Hin).
Qed.

Lemma generate_fuel_irrelevant :
  forall n m k g,
    (Z.to_nat k < n)%nat -> (Z.to_nat k < m)%nat ->
    generate_fuel n k g = generate_fuel m k g.
Proof.
  induction n as [| n IH]; intros m k g Hn Hm; [lia |].
  destruct m as [| m]; [lia |]; simpl.
  apply generate_body_ext; intros b g0 Hb; apply IH; lia.
Qed.

Lemma generate_fuel_Ok :
  forall n k g,
    (Z.to_nat k < n)%nat ->
    exists t g', generate_fuel n k g = (Ok t, g').
Proof.
  induction n as [| n IH]; intros k g Hn; [lia |]; simpl.
  destruct (Z.leb_spec k 0) as [Hk | Hk].
  - destruct (generate_body_leaf (generate_fuel n) g Hk)
      as (i & g1 & t & g' & Hrun).
    exists t, g'; apply Hrun.
  - destruct (@generate_body_node (generate_fuel n) k g Hk)
      as (i & g1 & js & g2 & args & g3 & t & g4 & Hrun).
    + intros b g0 Hb; apply IH; lia.
    + exists t, g4; apply Hrun.
Qed.

Lemma generate_Ok : forall k g, exists t g', generate k g = (Ok t, g').
Proof. intros k g; apply generate_fuel_Ok; lia. Qed.

Lemma randranges_range :
  forall k n g js g',
    0 < k -> randranges k n g = (Ok js, g') ->
    List.length js = n /\ Forall (fun j => 0 <= j < k) js.
Proof.
  intros k n g js g' Hk E.
  destruct (randranges_Ok n g Hk) as (js0 & g0 & E0 & Hlen & Hjs).
  rewrite E0 in E; injection E as <- <-; auto.
Qed.

Lemma mapM_Forall :
  forall (A B : Type) (f : A -> M G B) (Q : B -> Prop) l,
    (forall a g b g', In a l -> f a g = (Ok b, g') -> Q b) ->
    forall g bs g', mapM f l g = (Ok bs, g') -> Forall Q bs.
Proof.
  intros A B f Q l; induction l as [| a l IH]; intros Hf g bs g' E;
    simpl in E.
  - injection E as <- _; constructor.
  - unfold bind in E.
    destruct (f a g) as [[b | ex] g1] eqn:Eb; [| discriminate E].
    destruct (mapM f l g1) as [[bs' | ex] g2] eqn:Ebs; [| discriminate E].
    injection E as <- _.
    constructor.
    + apply (Hf a g b g1); [now left | exact Eb].
    + apply (IH (fun a' g0 b' g0' Hin => Hf a' g0 b' g0' (or_intror Hin))
               g1 bs' g2 Ebs).
Qed.

Lemma height_children :
  forall t, height t = S (list_max (map height (children t))).
Proof.
  intros t; destruct t; simpl; rewrite ?Nat.max_0_r; reflexivity.
Qed.

(** A tree generated on size [k] has no path of more than [k + 1] nodes:
    the size drops by at least one from a node to each of its children. *)
Lemma generate_fuel_height :
  forall n k g t g',
    (Z.to_nat k < n)%nat ->
    generate_fuel n k g = (Ok t, g') ->
    (height t <= S (Z.to_nat k))%nat.
Proof.
  induction n as [| n IH]; intros k g t g' Hn E; [lia |].
  simpl in E; rewrite height_children.
  destruct (Z.leb_spec k 0) as [Hk | Hk].
  - destruct (generate_body_leaf (generate_fuel n) g Hk)
      as (i & g1 & t0 & g0 & _ & _ & _ & Hch & _ & _ & E0).
    rewrite E0 in E; injection E as <- _.
    rewrite Hch; simpl; lia.
  - destruct (@generate_body_node (generate_fuel n) k g Hk)
      as (i & g1 & js & g2 & args & g3 & t0 & g4 & _ & _ & _ & _ & _ & Hjs
          & Eargs & _ & Hch & E0).
    { intros b g0 Hb; apply generate_fuel_Ok; lia. }
    rewrite E0 in E; injection E as <- _.
    rewrite Hch.
    apply le_n_S, list_max_le, Forall_map.
    pose proof (child_budgets_range Hk Hjs) as Hbs.
    apply (@mapM_Forall _ _ (generate_fuel n)
             (fun e => (height e <= Z.to_nat k)%nat)
             (loop_budgets k (sorted js) 0)) with (g := g2) (g' := g3);
      [| exact Eargs].
    intros b g0 e g0' Hin Ee.
    pose proof (proj1 (Forall_forall _ _) Hbs b Hin) as Hb.
    simpl in Hb.
    assert (Hh : (height e <= S (Z.to_nat b))%nat)
      by (apply (IH b g0 e g0'); [lia | exact Ee]).
    lia.
Qed.

(** C4: [generate] returns for every integer size, with a recursion depth
    of one more than the size (none is needed beyond it); the recursive
    calls of [generate(k)] are those of the loop and the final [append],
    each on a size in [[0, k)], hence strictly smaller than [k], and the
    result depends on the recursive call on such sizes only; so the tree
    has no path longer than the size allows. *)
Theorem generate_terminates :
  forall k g,
    (exists t g',
        generate k g = (Ok t, g') /\
        (forall fuel, (Z.to_nat k < fuel)%nat ->
                      generate_fuel fuel k g = (Ok t, g')) /\
        (height t <= S (Z.to_nat k))%nat) /\
    (forall (rec : Z -> M G expr) js g0,
        gen_args rec k (sorted js) 0 [] g0 =
        mapM rec (loop_budgets k (sorted js) 0) g0) /\
    (forall n g1 js g2,
        0 < k -> randranges k n g1 = (Ok js, g2) ->
        Forall (fun b => 0 <= b < k) (loop_budgets k (sorted js) 0)) /\
    (forall rec rec' : Z -> M G expr,
        (forall b g0, 0 <= b < k -> rec b g0 = rec' b g0) ->
        generate_body rec k g = generate_body rec' k g).
Proof.
  intros k g; split; [| split; [| split]].
  - destruct (generate_Ok k g) as (t & g' & E).
    exists t, g'; split; [exact E | split].
    + intros fuel Hfuel; rewrite <- E; unfold generate.
      apply generate_fuel_irrelevant; lia.
    + apply (@generate_fuel_height (S (Z.to_nat k)) k g t g');
        [lia | exact E].
  - intros rec js g0; apply gen_args_from_empty.
  - intros n g1 js g2 Hk E.
    apply child_budgets_range; [exact Hk |].
    exact (proj2 (randranges_range _ _ Hk E)).
  - intros rec rec'; apply generate_body_ext.
Qed.

Lemma generate_fuel_shape :
  forall n k g t g',
    generate_fuel n k g = (Ok t, g') -> Forall arity_respected (nodes t).
Proof.
  intros n k g t g' _; apply Forall_forall; intros m _.
  apply arity_respected_node.
Qed.

(** C5: for every integer size [generate] returns a tree (the constructor
    call, which raises [TypeError] on a wrong number of arguments, never
    does), and every node of the tree holds as many subexpressions as its
    class declares, the nodes of arity 0 none. *)
Theorem generate_respects_arity :
  forall k g,
    (exists t g',
        generate k g = (Ok t, g') /\
        Forall (fun n =>
                  Z.of_nat (List.length (children n)) = arity (class_of n) /\
                  (arity (class_of n) = 0 -> children n = []))
               (nodes t)) /\
    (forall op args g0 t g',
        construct op args g0 = (Ok t, g') ->
        class_of t = op /\ children t = args /\
        Z.of_nat (List.length args) = arity op) /\
    (forall op args g0,
        Z.of_nat (List.length args) <> arity op ->
        construct op args g0 = (Raise TypeError, g0)).
Proof.
  intros k g; split; [| split].
  - destruct (generate_Ok k g) as (t & g' & E).
    exists t, g'; split; [exact E |].
    exact (generate_fuel_shape _ _ _ E).
  - intros op args g0 t g'; apply construct_inv.
  - intros op args g0; apply construct_TypeError.
Qed.


(** C8: on a size [b <= 0], [generate] draws one index uniformly from
    [range(3)] and returns, without children, an instance of the class at
    that index of [operators0], which lists each class of arity 0 once
    ([VariableX], [VariableY], [Constant]) and no other; on [b > 0] it draws
    one index uniformly from [range(8)], and the root is an instance of the
    class at that index of [operators1], which lists each class of arity
    above 0 once and no other. *)
Theorem generate_root_choice :
  forall k g,
    (exists t g' i g1,
        generate k g = (Ok t, g') /\
        (k <= 0 ->
         randbelow 3 g = (i, g1) /\ 0 <= i < 3 /\
         class_of t = nth (Z.to_nat i) operators0 ClsVariableX /\
         children t = [] /\
         construct (class_of t) [] g1 = (Ok t, g')) /\
        (0 < k ->
         randbelow 8 g = (i, g1) /\ 0 <= i < 8 /\
         class_of t = nth (Z.to_nat i) operators1 ClsMix /\
         arity (class_of t) > 0)) /\
    operators0 = [ClsVariableX; ClsVariableY; ClsConstant] /\
    NoDup operators0 /\
    (forall op, In op operators0 <-> arity op = 0) /\
    NoDup operators1 /\
    List.length operators1 = 8%nat /\
    (forall op, In op operators1 <-> arity op > 0).
Proof.
  intros k g; split.
  - unfold generate; simpl.
    destruct (Z.leb_spec k 0) as [Hk | Hk].
    + destruct (generate_body_leaf (generate_fuel (Z.to_nat k)) g Hk)
        as (i & g1 & t & g' & Ei & Hi & Hc & Hch & Ha & Et & E).
      exists t, g', i, g1; split; [exact E |].
      split; [intros _ | intros Hpos; lia].
      repeat split; try assumption; lia.
    + destruct (@generate_body_node (generate_fuel (Z.to_nat k)) k g Hk)
        as (i & g1 & js & g2 & args & g3 & t & g4 & Ei & Hi & Hc & Ha & _
            & _ & _ & _ & _ & E).
      { intros b g0 Hb; apply generate_fuel_Ok; lia. }
      exists t, g4, i, g1; split; [exact E |].
      split; [intros Hneg; lia | intros _].
      repeat split; try assumption; lia.
  - repeat split;
      try apply operators0_arity; try apply operators1_arity;
      try exact operators0_NoDup; try exact operators1_NoDup.
Qed.

End GenerateFacts.

(** * The statements at concrete inputs *)

Section Examples.
Local Open Scope R_scope.

(** [Sum(x, y)] at (1, -1). *)
Example Sum_xy : eval (Sum VariableX VariableY) 1 (-1) = Ok (0, 0, 0).
Proof. simpl; unfold average_default_w; repeat f_equal; lra. Qed.

(** A [Constant] evaluates to its colour everywhere, and
    (0.2, 0.4, 0.6) is displayed as (153, 179, 204). *)
Example Constant_display :
  (forall x y, eval (Constant (2 / 10, 4 / 10, 6 / 10)) x y =
               Ok (2 / 10, 4 / 10, 6 / 10)) /\
  rgb (2 / 10) (4 / 10) (6 / 10) = "#99b3cc"%string.
Proof.
  split; [reflexivity |].
  assert (Hch : forall v z, IZR z <= 128 * (v + 1) < IZR z + 1 ->
                            (0 <= z <= 255)%Z -> rgb_channel v = z).
  { intros v z Hv Hz; rewrite rgb_channel_floor; unfold spec_channel, clamp.
    rewrite <- (Int_part_spec (128 * (v + 1)) z) by lra; lia. }
  unfold rgb.
  rewrite (Hch (2 / 10) 153%Z), (Hch (4 / 10) 179%Z), (Hch (6 / 10) 204%Z)
    by (simpl; lra || lia).
  reflexivity.
Qed.

(** [Mod(x, y)] where [y] is 0, and where no channel of the divisor is. *)
Lemma Mod_eval_fallback_witness :
  eval_checked (Mod VariableX VariableY) 5 0 = Returns (0, 0, 0) /\
  eval_checked (Mod VariableX VariableY) 5 3 = Returns (2, 2, 2).
Proof.
  split.
  - destruct (@Mod_eval_fallback VariableX VariableY 5 0 5 5 5 0 0 0
                eq_refl eq_refl) as (_ & Hzero & _).
    apply Hzero; left; reflexivity.
  - destruct (@Mod_eval_fallback VariableX VariableY 5 3 5 5 5 3 3 3
                eq_refl eq_refl) as (_ & _ & Hok & _).
    assert (Hq : Int_part (5 / 3) = 1%Z)
      by (symmetry; apply Int_part_spec; simpl; lra).
    assert (Hm : py_mod 5 3 = Ok 2).
    { rewrite py_mod_nonzero by lra; rewrite Hq; f_equal; lra. }
    apply Hok; exact Hm.
Defined.

(** [Mix(y, x, y)] at (1, 0). *)
Lemma Mix_eval_unweighted_witness :
  eval_checked (Mix VariableY VariableX VariableY) 1 0 =
  Returns (5 / 10 * 1 + 5 / 10 * 0, 5 / 10 * 1 + 5 / 10 * 0,
           5 / 10 * 1 + 5 / 10 * 0).
Proof.
  exact (proj1 (proj2 (@Mix_eval_unweighted VariableY VariableX VariableY
                         1 0 (0, 0, 0) 1 1 1 0 0 0
                         eq_refl eq_refl eq_refl))).
Defined.

(** [rgb] on a channel value of 0.5, and on one whose scaled value
    overflows. *)
Lemma rgb_clamps_witness :
  (exists c, rgb_channel_checked (1 / 2) = Ok c /\ (0 <= c <= 255)%Z) /\
  rgb_channel_checked (IZR (10 ^ 308)) = Raise OverflowError.
Proof.
  destruct rgb_clamps as (Hfin & Hinf & _).
  split.
  - destruct (Hfin (1 / 2)) as (c & E & _ & Hr & _).
    + apply finite_scaled, Rabs_le; lra.
    + exists c; split; assumption.
  - apply Hinf.
    apply (@finite_ge _ (128 * (10 ^ 308 + 1))%Z);
      [vm_compute; discriminate |].
    rewrite <- (Rabs_IZR_nonneg (z := 128 * (10 ^ 308 + 1)))
      by (vm_compute; discriminate).
    rewrite mult_IZR, plus_IZR; apply Req_le; reflexivity.
Defined.


End Examples.

Section RunExamples.
Local Open Scope Z_scope.

(** [generate(3)] on the linear congruential source, started at 5. *)
Lemma generate_terminates_witness :
  exists t g', generate_fuel 4 3 (5 : Z) = (Ok t, g').
Proof.
  destruct (generate_terminates 3 (5 : Z)) as ((t & g' & _ & Hfuel & _) & _).
  exists t, g'; apply Hfuel; simpl; lia.
Defined.

Lemma generate_respects_arity_witness :
  construct ClsSum [VariableX] (5 : Z) = (Raise TypeError, 5).
Proof.
  destruct (generate_respects_arity 3 (5 : Z)) as (_ & _ & Herr).
  apply Herr; simpl; lia.
Defined.


Lemma generate_root_choice_witness :
  exists t g',
    generate 0 (5 : Z) = (Ok t, g') /\
    class_of t = ClsConstant /\ children t = [].
Proof.
  destruct (generate_root_choice 0 (5 : Z))
    as ((t & g' & i & g1 & E & Hleaf & _) & _).
  destruct Hleaf as (Ei & _ & Hc & Hch & _); [lia |].
  exists t, g'; repeat split; try assumption.
  rewrite Hc; injection Ei as <- _; reflexivity.
Defined.

End RunExamples.

(** * Further properties of the numeric helpers *)

Section HelperFacts.
Local Open Scope R_scope.

(** X2: [tent] peaks at 0 with value 1, is even, never exceeds 1, maps the
    unit range into itself and sends every point outside it below -1. *)
Theorem tent_shape :
  tent 0 = 1 /\
  (forall v, tent (- v) = tent v) /\
  (forall v, tent v <= 1) /\
  (forall v, unit_range v -> unit_range (tent v)) /\
  (forall v, 1 < Rabs v -> tent v < -1).
Proof.
  unfold tent, unit_range; repeat split.
  - rewrite Rabs_R0; lra.
  - intros v; rewrite Rabs_Ropp; reflexivity.
  - intros v; pose proof (Rabs_pos v); lra.
  - pose proof (Rabs_pos v); unfold Rabs in *.
    destruct (Rcase_abs v); lra.
  - pose proof (Rabs_pos v); lra.
  - intros v Hv; lra.
Qed.

Lemma tent_shape_witness : unit_range (tent (1 / 2)) /\ tent 2 < -1.
Proof.
  destruct tent_shape as (_ & _ & _ & Hin & Hout).
  split.
  - apply Hin; unfold unit_range; lra.
  - apply Hout; unfold Rabs; destruct (Rcase_abs 2); lra.
Defined.

Lemma Rabs_square : forall x, x * x = Rabs x * Rabs x.
Proof.
  intros x; unfold Rabs; destruct (Rcase_abs x); ring.
Qed.

(** Up to [1e19] in magnitude the power in [well] does not overflow. *)
Lemma well_checked_small :
  forall x,
    Rabs x <= IZR (10 ^ 19) ->
    well_checked x = Returns (1 - 2 / (1 + x * x) ^ 8).
Proof.
  intros x Hx; unfold well_checked.
  assert (Hm : 0 <= IZR (10 ^ 19)) by (apply IZR_le; vm_compute; discriminate).
  assert (Hsq : 0 <= x * x <= IZR (10 ^ 19) * IZR (10 ^ 19)).
  { rewrite Rabs_square; pose proof (Rabs_pos x).
    set (a := Rabs x) in *; set (m := IZR (10 ^ 19)) in *.
    clearbody a m; split; nra. }
  rewrite (@finite_le (x * x) (10 ^ 19 * 10 ^ 19)%Z);
    [| vm_compute; reflexivity
     | rewrite mult_IZR, Rabs_right by lra; apply Hsq].
  rewrite (@finite_le ((1 + x * x) ^ 8)
             ((1 + 10 ^ 19 * 10 ^ 19) ^ Z.of_nat 8)%Z);
    [rewrite well_value; reflexivity | vm_compute; reflexivity |].
  rewrite <- pow_IZR, plus_IZR, mult_IZR.
  rewrite Rabs_right by (apply Rle_ge, pow_le; lra).
  apply pow_incr; lra.
Qed.

(** X3: at arguments of magnitude up to [1e19] [well] returns without
    raising, a value of the unit range, and rises with the distance from
    0: if [|u| <= |v|] then [well(u) <= well(v)]. *)
Theorem well_monotone :
  forall u v,
    Rabs u <= Rabs v -> Rabs v <= IZR (10 ^ 19) ->
    exists a b,
      well_checked u = Returns a /\ well_checked v = Returns b /\
      -1 <= a /\ a <= b /\ b <= 1.
Proof.
  intros u v Huv Hv.
  exists (1 - 2 / (1 + u * u) ^ 8), (1 - 2 / (1 + v * v) ^ 8).
  rewrite !well_checked_small by (try exact Hv; eapply Rle_trans; eassumption).
  split; [reflexivity | split; [reflexivity |]].
  pose proof (@well_unit u _ (well_value u)) as [Hu1 _].
  pose proof (@well_unit v _ (well_value v)) as [_ Hv1].
  split; [exact Hu1 | split; [| exact Hv1]].
  assert (Hsq : u * u <= v * v) by (apply Rsqr_le_abs_1 in Huv; exact Huv).
  assert (Hpow : (1 + u * u) ^ 8 <= (1 + v * v) ^ 8)
    by (apply pow_incr; nra).
  pose proof (well_denominator_pos u) as Hu.
  pose proof (Rinv_le_contravar _ _ Hu Hpow) as Hinv.
  unfold Rdiv.
  set (a := / (1 + u * u) ^ 8) in *; set (b := / (1 + v * v) ^ 8) in *.
  clearbody a b; lra.
Qed.

Lemma well_monotone_witness :
  exists a b,
    well_checked (1 / 2) = Returns a /\ well_checked (-1) = Returns b /\
    -1 <= a /\ a <= b /\ b <= 1.
Proof.
  apply well_monotone.
  - unfold Rabs; destruct (Rcase_abs (1 / 2)), (Rcase_abs (-1)); lra.
  - assert (Hm : 1 <= IZR (10 ^ 19))
      by (apply IZR_le; vm_compute; discriminate).
    apply Rabs_le.
    set (m := IZR (10 ^ 19)) in *; clearbody m; lra.
Defined.

Lemma Int_part_monotone :
  forall a b, a <= b -> (Int_part a <= Int_part b)%Z.
Proof.
  intros a b Hab.
  destruct (base_Int_part a) as [Ha _].
  destruct (base_Int_part b) as [_ Hb].
  assert (Hlt : IZR (Int_part a) < IZR (Int_part b + 1))
    by (rewrite plus_IZR; simpl; lra).
  apply lt_IZR in Hlt; lia.
Qed.

(** X4: a channel of [rgb] never decreases when the input grows, as long
    as the scaled values are finite floats, which [int] accepts. *)
Theorem rgb_channel_monotone :
  forall u v,
    u <= v ->
    finite (128 * (u + 1)) = true -> finite (128 * (v + 1)) = true ->
    exists a b,
      rgb_channel_checked u = Ok a /\ rgb_channel_checked v = Ok b /\
      (0 <= a <= b)%Z /\ (b <= 255)%Z.
Proof.
  intros u v Huv Hu Hv.
  exists (rgb_channel u), (rgb_channel v).
  rewrite !rgb_channel_checked_finite by assumption.
  split; [reflexivity | split; [reflexivity |]].
  pose proof (rgb_channel_range u); pose proof (rgb_channel_range v).
  assert (Hm : (rgb_channel u <= rgb_channel v)%Z); [| lia].
  rewrite !rgb_channel_floor; unfold spec_channel, clamp.
  assert (Hi : (Int_part (128 * (u + 1)) <= Int_part (128 * (v + 1)))%Z)
    by (apply Int_part_monotone; lra).
  lia.
Qed.

Lemma rgb_channel_monotone_witness :
  exists a b,
    rgb_channel_checked (1 / 4) = Ok a /\ rgb_channel_checked 7 = Ok b /\
    (0 <= a <= b)%Z /\ (b <= 255)%Z.
Proof.
  apply rgb_channel_monotone;
    [lra | apply finite_scaled, Rabs_le; lra
     | apply finite_scaled, Rabs_le; lra].
Defined.




End HelperFacts.

(** * Further properties of [eval] *)

Section EvalRangeFacts.
Local Open Scope R_scope.

(** The float remainder has the sign of the divisor and is smaller in
    magnitude. *)
Lemma py_mod_sign :
  forall a b,
    b <> 0 ->
    exists r,
      py_mod a b = Ok r /\
      (0 < b -> 0 <= r < b) /\ (b < 0 -> b < r <= 0).
Proof.
  intros a b Hb.
  exists (a - b * IZR (Int_part (a / b))).
  split; [apply py_mod_nonzero; exact Hb |].
  destruct (base_Int_part (a / b)) as [Hlo Hhi].
  assert (Ha : a = a / b * b) by (field; exact Hb).
  set (t := a / b) in *; set (q := IZR (Int_part t)) in *.
  clearbody q; clearbody t.
  rewrite Ha; split; intros Hsign; split; nra.
Qed.

Lemma mod_try_bounded :
  forall c1 r2 g2 b2,
  exists r g b,
    mod_try c1 (r2, g2, b2) = (r, g, b) /\
    (Rabs r <= Rabs r2 /\ 0 <= r * r2) /\
    (Rabs g <= Rabs g2 /\ 0 <= g * g2) /\
    (Rabs b <= Rabs b2 /\ 0 <= b * b2).
Proof.
  intros [[r1 g1] b1] r2 g2 b2.
  assert (Hzero : forall v, Rabs 0 <= Rabs v /\ 0 <= 0 * v)
    by (intros v; rewrite Rabs_R0; pose proof (Rabs_pos v); lra).
  assert (Hch : forall d r,
             (0 < d -> 0 <= r < d) -> (d < 0 -> d < r <= 0) -> d <> 0 ->
             Rabs r <= Rabs d /\ 0 <= r * d).
  { intros d r Hpos Hneg Hd; unfold Rabs.
    destruct (Rcase_abs r), (Rcase_abs d);
      destruct (Rtotal_order d 0) as [Hlt | [Heq | Hgt]];
      try contradiction; try specialize (Hpos Hgt);
      try specialize (Hneg Hlt); split; nra. }
  unfold mod_try.
  destruct (Req_dec_T r2 0) as [-> | Hr];
    [rewrite py_mod_zero; exists 0, 0, 0; auto |].
  destruct (py_mod_sign r1 Hr) as (r & -> & Hrp & Hrn); cbn [res_bind].
  destruct (Req_dec_T g2 0) as [-> | Hg];
    [rewrite py_mod_zero; exists 0, 0, 0; auto |].
  destruct (py_mod_sign g1 Hg) as (g & -> & Hgp & Hgn); cbn [res_bind].
  destruct (Req_dec_T b2 0) as [-> | Hb];
    [rewrite py_mod_zero; exists 0, 0, 0; auto |].
  destruct (py_mod_sign b1 Hb) as (b & -> & Hbp & Hbn); cbn [res_bind].
  exists r, g, b; split; [reflexivity |].
  repeat split; eapply Hch; eauto.
Qed.



Lemma tent_unit : forall v, unit_range v -> unit_range (tent v).
Proof.
  unfold tent, unit_range, Rabs; intros v Hv.
  destruct (Rcase_abs v); lra.
Qed.

Lemma average_unit :
  forall c1 c2,
    in_unit c1 -> in_unit c2 -> in_unit (average c1 c2 average_default_w).
Proof.
  intros [[r1 g1] b1] [[r2 g2] b2].
  unfold in_unit, unit_range, average, average_default_w.
  intros (? & ? & ?) (? & ? & ?); repeat split; lra.
Qed.

Lemma unit_range_Rabs : forall v, unit_range v <-> Rabs v <= 1.
Proof.
  intros v; unfold unit_range, Rabs; destruct (Rcase_abs v); split; lra.
Qed.

(** On the unit square, a tree whose constants lie in the unit range
    evaluates into the unit range. *)
Lemma eval_in_unit :
  forall e x y,
    every_node constant_in_unit e -> unit_range x -> unit_range y ->
    exists c, eval e x y = Ok c /\ in_unit c.
Proof.
  induction e as [| | c | e1 IH1 e2 IH2 | e1 IH1 e2 IH2 | e1 IH1 e2 IH2
                 | e IH | e IH | e IH phase freq
                 | t l IHl e1 IH1 e2 IH2 | w IHw e1 IH1 e2 IH2];
    intros x y Hc Hx Hy; cbn [every_node] in Hc; cbn [eval];
    repeat match goal with
           | H : _ /\ _ |- _ => destruct H
           end;
    repeat match goal with
           | IH : forall x y, every_node _ ?e -> _, H : every_node _ ?e |- _ =>
               destruct (IH x y H Hx Hy) as ([[? ?] ?] & -> & ?); clear IH
           end;
    cbn [res_bind].
  - exists (x, x, x); split; [reflexivity | repeat split; apply Hx].
  - exists (y, y, y); split; [reflexivity | repeat split; apply Hy].
  - exists c; split; [reflexivity | assumption].
  - eexists; split; [reflexivity | now apply average_unit].
  - eexists; split; [reflexivity |].
    unfold in_unit, unit_range in *; repeat split; nra.
  - eexists; split; [reflexivity |].
    match goal with
    | |- in_unit (mod_try ?c1 (?r2, ?g2, ?b2)) =>
        destruct (mod_try_bounded c1 r2 g2 b2)
          as (r' & g' & b' & -> & (Hr & _) & (Hg & _) & (Hb & _))
    end.
    unfold in_unit in *; rewrite !unit_range_Rabs in *.
    repeat split; lra.
  - rewrite !well_value; cbn [res_bind].
    eexists; split; [reflexivity |].
    repeat split; eapply well_unit; apply well_value.
  - eexists; split; [reflexivity |].
    unfold in_unit in *; repeat split; apply tent_unit; tauto.
  - eexists; split; [reflexivity |].
    repeat split; apply SIN_bound.
  - eexists; split; [reflexivity |].
    unfold in_unit in *.
    repeat match goal with
           | |- context [Rlt_dec ?a ?b] => destruct (Rlt_dec a b)
           end; tauto.
  - eexists; split; [reflexivity | now apply average_unit].
Qed.

(** On the unit square no intermediate result leaves the finite range: a
    tree whose attributes lie in the intervals they are drawn from
    evaluates without an exception, to the colour that [eval] gives. *)
Lemma eval_checked_in_unit :
  forall e x y,
    every_node drawn_in_range e -> unit_range x -> unit_range y ->
    exists c,
      eval_checked e x y = Returns c /\ eval e x y = Ok c /\ in_unit c.
Proof.
  assert (Hsound : forall e x y c,
             eval_checked e x y = Returns c -> in_unit c ->
             exists c', eval_checked e x y = Returns c' /\
                        eval e x y = Ok c' /\ in_unit c').
  { intros e x y c E Hu; exists c; split; [exact E |].
    split; [apply eval_checked_sound; exact E | exact Hu]. }
  induction e as [| | c | e1 IH1 e2 IH2 | e1 IH1 e2 IH2 | e1 IH1 e2 IH2
                 | e IH | e IH | e IH phase freq
                 | t l IHl e1 IH1 e2 IH2 | w IHw e1 IH1 e2 IH2];
    intros x y Hc Hx Hy; cbn [every_node] in Hc;
    repeat match goal with
           | H : _ /\ _ |- _ => destruct H
           end;
    repeat match goal with
           | IH : forall x y, every_node _ ?e -> _, H : every_node _ ?e |- _ =>
               let E := fresh "E" in
               let U := fresh "U" in
               destruct (IH x y H Hx Hy) as ([[? ?] ?] & E & _ & U); clear IH
           end;
    eapply Hsound; cbn [eval_checked];
    repeat match goal with
           | E : eval_checked _ _ _ = Returns _ |- _ => rewrite E; clear E
           end;
    cbn [out_bind].
  - reflexivity.
  - repeat split; apply Hx.
  - reflexivity.
  - repeat split; apply Hy.
  - reflexivity.
  - match goal with
    | H : drawn_in_range (Constant ?c) |- _ =>
        destruct c as [[r g] b]; cbn [drawn_in_range] in H;
        unfold in_unit, unit_range; lra
    end.
  - reflexivity.
  - now apply average_unit.
  - unfold mul_checked.
    rewrite !(@finite_le (_ * _) 1%Z);
      try (vm_compute; reflexivity); try reflexivity;
      unfold in_unit in *; rewrite !unit_range_Rabs in *;
      rewrite Rabs_mult;
      repeat match goal with
             | H : _ /\ _ |- _ => destruct H
             end;
      match goal with
      | |- Rabs ?a * Rabs ?b <= 1 =>
          pose proof (Rabs_pos a); pose proof (Rabs_pos b);
          set (p := Rabs a) in *; set (q := Rabs b) in *;
          clearbody p q; nra
      end.
  - unfold in_unit, unit_range in *; repeat split; nra.
  - reflexivity.
  - match goal with
    | |- in_unit (mod_try ?c1 (?r2, ?g2, ?b2)) =>
        destruct (mod_try_bounded c1 r2 g2 b2)
          as (r' & g' & b' & -> & (Hr & _) & (Hg & _) & (Hb & _))
    end.
    unfold in_unit in *; rewrite !unit_range_Rabs in *.
    repeat split; lra.
  - rewrite !well_checked_small; [reflexivity | | |];
      (apply Rle_trans with 1;
       [apply -> unit_range_Rabs; unfold in_unit in *; tauto
       | apply IZR_le; vm_compute; discriminate]).
  - repeat split; eapply well_unit; apply well_value.
  - unfold tent_checked.
    rewrite !(@finite_le (2 * Rabs _) 2%Z);
      try (vm_compute; reflexivity); try reflexivity;
      unfold in_unit in *; rewrite !unit_range_Rabs in *;
      (rewrite Rabs_mult, Rabs_Rabsolu, (Rabs_right 2) by lra; lra).
  - unfold in_unit in *; repeat split; apply tent_unit; tauto.
  - match goal with
    | H : drawn_in_range (Sin _ _ _) |- _ =>
        cbn [drawn_in_range] in H; destruct H as (Hp & Hf)
    end.
    pose proof PI_4 as Hpi.
    rewrite !sin_checked_drawn; [reflexivity | | | | | | | | |];
      try lra;
      (apply Rle_trans with 1;
       [apply -> unit_range_Rabs; unfold in_unit in *; tauto
       | apply IZR_le; vm_compute; discriminate]).
  - repeat split; apply SIN_bound.
  - reflexivity.
  - unfold in_unit in *.
    repeat match goal with
           | |- context [Rlt_dec ?a ?b] => destruct (Rlt_dec a b)
           end; tauto.
  - reflexivity.
  - now apply average_unit.
Qed.



Lemma tent_checked_upto :
  forall v,
    Rabs v <= IZR (10 ^ 300) -> tent_checked v = Returns (1 - 2 * Rabs v).
Proof.
  intros v Hv; unfold tent_checked.
  rewrite (@finite_le (2 * Rabs v) (2 * 10 ^ 300)%Z);
    [reflexivity | vm_compute; reflexivity |].
  rewrite mult_IZR, Rabs_mult, Rabs_Rabsolu, (Rabs_right 2) by lra.
  set (m := IZR (10 ^ 300)) in *; clearbody m; lra.
Qed.

(** X17: once the child has returned a triple with channels of magnitude
    up to [1e19], [Well.eval] returns, and each channel of its result lies
    in [[-1, 1]]; with channels up to [1e300], [Tent.eval] returns
    [1 - 2 * abs(v)] for each channel [v], which does not exceed 1.  At
    [x = 1e20] the power in [well] overflows and [Well(x)] raises
    [OverflowError]. *)
Theorem Well_Tent_eval_bounded :
  (forall e x y v1 v2 v3,
      eval_checked e x y = Returns (v1, v2, v3) ->
      (Rabs v1 <= IZR (10 ^ 19) -> Rabs v2 <= IZR (10 ^ 19) ->
       Rabs v3 <= IZR (10 ^ 19) ->
       exists r g b,
         eval_checked (Well e) x y = Returns (r, g, b) /\
         -1 <= r <= 1 /\ -1 <= g <= 1 /\ -1 <= b <= 1) /\
      (Rabs v1 <= IZR (10 ^ 300) -> Rabs v2 <= IZR (10 ^ 300) ->
       Rabs v3 <= IZR (10 ^ 300) ->
       exists r g b,
         eval_checked (Tent e) x y = Returns (r, g, b) /\
         r = 1 - 2 * Rabs v1 /\ g = 1 - 2 * Rabs v2 /\
         b = 1 - 2 * Rabs v3 /\
         r <= 1 /\ g <= 1 /\ b <= 1)) /\
  eval_checked (Well VariableX) (IZR (10 ^ 20)) 0 = Raises OverflowError.
Proof.
  split.
  - intros e x y v1 v2 v3 E; split.
    + intros H1 H2 H3.
      cbn [eval_checked]; rewrite E; cbn [out_bind].
      rewrite !well_checked_small by assumption; cbn [out_bind].
      eexists _, _, _; split; [reflexivity |].
      repeat split; eapply well_unit; apply well_value.
    + intros H1 H2 H3.
      cbn [eval_checked]; rewrite E; cbn [out_bind].
      rewrite !tent_checked_upto by assumption; cbn [out_bind].
      eexists _, _, _; split; [reflexivity |].
      repeat split;
        match goal with
        | |- 1 - 2 * Rabs ?v <= 1 => pose proof (Rabs_pos v); lra
        end.
  - cbn [eval_checked out_bind]; unfold well_checked.
    assert (Hm : 0 <= IZR (10 ^ 20))
      by (apply IZR_le; vm_compute; discriminate).
    rewrite (@finite_le (IZR (10 ^ 20) * IZR (10 ^ 20)) (10 ^ 20 * 10 ^ 20)%Z);
      [| vm_compute; reflexivity
       | rewrite <- mult_IZR, Rabs_IZR_nonneg by (vm_compute; discriminate);
         lra].
    rewrite (@finite_ge ((1 + IZR (10 ^ 20) * IZR (10 ^ 20)) ^ 8)
               ((1 + 10 ^ 20 * 10 ^ 20) ^ Z.of_nat 8)%Z);
      [reflexivity | vm_compute; discriminate |].
    rewrite <- mult_IZR, <- plus_IZR, pow_IZR.
    rewrite Rabs_IZR_nonneg by (vm_compute; discriminate); lra.
Qed.

Lemma Well_Tent_eval_bounded_witness :
  exists r g b,
    eval_checked (Well VariableX) 100 0 = Returns (r, g, b) /\
    -1 <= r <= 1 /\ -1 <= g <= 1 /\ -1 <= b <= 1.
Proof.
  assert (Hm : Rabs 100 <= IZR (10 ^ 19)).
  { assert (Hm : 100 <= IZR (10 ^ 19))
      by (apply IZR_le; vm_compute; discriminate).
    apply Rabs_le.
    set (m := IZR (10 ^ 19)) in *; clearbody m; lra. }
  exact (proj1 (proj1 Well_Tent_eval_bounded VariableX 100 0 100 100 100
                  eq_refl) Hm Hm Hm).
Defined.


End EvalRangeFacts.

(** * Further properties of [generate] *)

Lemma every_node_children :
  forall (P : expr -> Prop) t,
    P t -> Forall (every_node P) (children t) -> every_node P t.
Proof.
  intros P t Hp Hf; destruct t; simpl in *; split; auto;
    repeat match goal with
           | H : Forall _ (_ :: _) |- _ => inversion H; subst; clear H
           end; auto.
Qed.

Lemma every_node_impl :
  forall (P Q : expr -> Prop) t,
    (forall n, P n -> Q n) -> every_node P t -> every_node Q t.
Proof.
  intros P Q t Himp; induction t; simpl; intuition.
Qed.

Lemma composites_children :
  forall t,
    composites t =
    if (arity (class_of t) =? 0)%Z then 0%nat
    else S (list_sum (map composites (children t))).
Proof. intros t; destruct t; simpl; lia. Qed.

Lemma nodes_composites :
  forall t,
    (S (composites t) <= List.length (nodes t) <= 3 * composites t + 1)%nat.
Proof.
  induction t; simpl; rewrite ?length_app; lia.
Qed.

Lemma loop_budgets_sum :
  forall k js i, sum_Z (loop_budgets k js i) = (k - 1 - i)%Z.
Proof.
  intros k js; induction js as [| j js IH]; intros i; simpl.
  - lia.
  - rewrite IH; lia.
Qed.

Lemma drawn_constant_in_unit :
  forall n, drawn_in_range n -> constant_in_unit n.
Proof.
  intros n; destruct n as [| | [[r g] b] | | | | | | | |]; simpl; auto.
  unfold unit_range; intros (? & ? & ?); repeat split; lra.
Qed.

Section GenerateMoreFacts.
Context {G : Type} `{RandomSource G}.
Local Open Scope Z_scope.

Lemma uniform_range :
  forall a b g u g',
    (a < b)%R -> uniform a b g = (Ok u, g') -> (a <= u < b)%R.
Proof.
  intros a b g u g' Hab E; unfold uniform in E.
  pose proof (random_range g) as Hr.
  destruct (random g) as [u0 g0]; simpl in Hr.
  injection E as <- _; split; nra.
Qed.

(** [__init__] leaves every random attribute in the interval it is drawn
    from. *)
Lemma construct_drawn :
  forall op args g t g',
    construct op args g = (Ok t, g') -> drawn_in_range t.
Proof.
  intros op args g t g' E.
  destruct op; destruct args as [| a1 [| a2 [| a3 [| a4 args]]]];
    simpl in E; try discriminate E;
    try (injection E as <- _; exact I); unfold bind, ret in E.
  - destruct (uniform 0 1 g) as [[r | ex] g1] eqn:E1; [| discriminate E].
    destruct (uniform 0 1 g1) as [[gr | ex] g2] eqn:E2; [| discriminate E].
    destruct (uniform 0 1 g2) as [[b | ex] g3] eqn:E3; [| discriminate E].
    injection E as <- _; simpl.
    repeat split; eapply uniform_range; eauto; lra.
  - destruct (uniform 0 PI g) as [[ph | ex] g1] eqn:E1; [| discriminate E].
    destruct (uniform 1 6 g1) as [[fr | ex] g2] eqn:E2; [| discriminate E].
    injection E as <- _; simpl.
    pose proof PI_RGT_0.
    repeat split; eapply uniform_range; eauto; lra.
  - destruct (uniform (-1) 1 g) as [[th | ex] g1] eqn:E1; [| discriminate E].
    injection E as <- _; simpl.
    split; eapply uniform_range; eauto; lra.
Qed.

(** What every constructor call establishes holds at every node of a
    generated tree, whatever the recursion depth allowed. *)
Lemma generate_fuel_every :
  forall (P : expr -> Prop),
    (forall op args g t g', construct op args g = (Ok t, g') -> P t) ->
    forall n k g t g',
      generate_fuel n k g = (Ok t, g') -> every_node P t.
Proof.
  intros P Hctor; induction n as [| n IH]; intros k g t g' E;
    [discriminate E |].
  simpl in E; unfold generate_body in E.
  destruct (k <=? 0).
  - unfold bind in E.
    destruct (choice operators0 g) as [[op | ex] g1]; [| discriminate E].
    apply every_node_children; [exact (Hctor _ _ _ _ _ E) |].
    destruct (construct_inv _ _ _ E) as (_ & -> & _); constructor.
  - unfold bind in E.
    destruct (choice operators1 g) as [[op | ex] g1]; [| discriminate E].
    destruct (randranges k (Z.to_nat (arity op - 1)) g1)
      as [[js | ex] g2]; [| discriminate E].
    destruct (gen_args (generate_fuel n) k (sorted js) 0 [] g2)
      as [[args | ex] g3] eqn:Eargs; [| discriminate E].
    rewrite gen_args_from_empty in Eargs.
    apply every_node_children; [exact (Hctor _ _ _ _ _ E) |].
    destruct (construct_inv _ _ _ E) as (_ & -> & _).
    eapply mapM_Forall; [| exact Eargs].
    intros b g0 e g0' _ Ee; exact (IH b g0 e g0' Ee).
Qed.

(** X9: in a generated tree every [Constant] colour has its channels in
    [[0, 1)], every [Sin] its phase in [[0, pi)] and its frequency in
    [[1, 6)], and every [Level] its threshold in [[-1, 1)]. *)
Theorem generate_draws_in_range :
  forall k g,
  exists t g',
    generate k g = (Ok t, g') /\
    every_node
      (fun n =>
         match n with
         | Constant (r, gr, b) =>
             (0 <= r < 1 /\ 0 <= gr < 1 /\ 0 <= b < 1)%R
         | Sin _ phase freq => (0 <= phase < PI /\ 1 <= freq < 6)%R
         | Level treshold _ _ _ => (-1 <= treshold < 1)%R
         | _ => True
         end) t.
Proof.
  intros k g.
  destruct (generate_Ok k g) as (t & g' & E).
  exists t, g'; split; [exact E |].
  exact (generate_fuel_every drawn_in_range construct_drawn _ _ _ E).
Qed.

(** X10: on the unit square a generated tree evaluates, without raising,
    to a colour with every channel in [[-1, 1]]. *)
Theorem generate_eval_in_unit :
  forall k g x y,
    (-1 <= x <= 1)%R -> (-1 <= y <= 1)%R ->
    exists t g' r gr b,
      generate k g = (Ok t, g') /\
      eval t x y = Ok (r, gr, b) /\
      (-1 <= r <= 1 /\ -1 <= gr <= 1 /\ -1 <= b <= 1)%R.
Proof.
  intros k g x y Hx Hy.
  destruct (generate_Ok k g) as (t & g' & E).
  pose proof (generate_fuel_every drawn_in_range construct_drawn _ _ _ E)
    as Hd.
  apply (@every_node_impl _ _ _ drawn_constant_in_unit) in Hd.
  destruct (eval_in_unit t Hd Hx Hy) as ([[r gr] b] & Ee & Hu).
  exists t, g', r, gr, b; split; [exact E | split; [exact Ee | exact Hu]].
Qed.

Lemma mapM_Forall2 :
  forall (A B : Type) (f : A -> M G B) (R : A -> B -> Prop) l,
    (forall a g b g', In a l -> f a g = (Ok b, g') -> R a b) ->
    forall g bs g', mapM f l g = (Ok bs, g') -> Forall2 R l bs.
Proof.
  intros A B f R l; induction l as [| a l IH]; intros Hf g bs g' E;
    simpl in E.
  - injection E as <- _; constructor.
  - unfold bind in E.
    destruct (f a g) as [[b | ex] g1] eqn:Eb; [| discriminate E].
    destruct (mapM f l g1) as [[bs' | ex] g2] eqn:Ebs; [| discriminate E].
    injection E as <- _.
    constructor.
    + apply (Hf a g b g1); [now left | exact Eb].
    + apply (IH (fun a' g0 b' g0' Hin => Hf a' g0 b' g0' (or_intror Hin))
               g1 bs' g2 Ebs).
Qed.

Lemma composites_sum :
  forall bs es,
    Forall2 (fun b e => Z.of_nat (composites e) = b) bs es ->
    Z.of_nat (list_sum (map composites es)) = sum_Z bs.
Proof.
  intros bs es Hf; induction Hf as [| b e bs es Hbe _ IH]; simpl.
  - reflexivity.
  - rewrite Nat2Z.inj_add, IH, Hbe; reflexivity.
Qed.

(** A tree generated on size [k] has exactly [max(k, 0)] nodes that are
    not leaves: a composite node costs 1 and hands the rest on. *)
Lemma generate_fuel_composites :
  forall n k g t g',
    (Z.to_nat k < n)%nat ->
    generate_fuel n k g = (Ok t, g') ->
    composites t = Z.to_nat k.
Proof.
  induction n as [| n IH]; intros k g t g' Hn E; [lia |].
  simpl in E; rewrite composites_children.
  destruct (Z.leb_spec k 0) as [Hk | Hk].
  - destruct (generate_body_leaf (generate_fuel n) g Hk)
      as (i & g1 & t0 & g0 & _ & _ & _ & _ & Ha & _ & E0).
    rewrite E0 in E; injection E as <- _.
    rewrite Ha; simpl; lia.
  - destruct (@generate_body_node _ _ (generate_fuel n) k g Hk)
      as (i & g1 & js & g2 & args & g3 & t0 & g4 & _ & _ & _ & Ha & _ & Hjs
          & Eargs & _ & Hch & E0).
    { intros b g0 Hb; apply generate_fuel_Ok; lia. }
    rewrite E0 in E; injection E as <- _.
    replace (arity (class_of t0) =? 0) with false
      by (symmetry; apply Z.eqb_neq; lia).
    rewrite Hch.
    pose proof (child_budgets_range Hk Hjs) as Hbs.
    assert (Hsum : Z.of_nat (list_sum (map composites args)) = k - 1).
    { replace (k - 1) with (sum_Z (loop_budgets k (sorted js) 0))
        by (rewrite loop_budgets_sum; lia).
      apply composites_sum.
      eapply mapM_Forall2; [| exact Eargs].
      intros b g0 e g0' Hin Ee; simpl.
      pose proof (proj1 (Forall_forall _ _) Hbs b Hin) as Hb.
      simpl in Hb.
      rewrite (IH b g0 e g0'); [lia | lia | exact Ee]. }
    lia.
Qed.

(** X11: for a size [k >= 0], [generate] returns a tree with exactly [k]
    composite nodes (none for a negative size), and so with between
    [k + 1] and [3 * k + 1] nodes in all. *)
Theorem generate_size :
  forall k g,
  exists t g',
    generate k g = (Ok t, g') /\
    composites t = Z.to_nat k /\
    (Z.to_nat k + 1 <= List.length (nodes t) <= 3 * Z.to_nat k + 1)%nat.
Proof.
  intros k g.
  destruct (generate_Ok k g) as (t & g' & E).
  exists t, g'; split; [exact E |].
  assert (Hc : composites t = Z.to_nat k)
    by (apply (@generate_fuel_composites (S (Z.to_nat k)) k g t g');
        [lia | exact E]).
  split; [exact Hc |].
  pose proof (nodes_composites t); lia.
Qed.

(** X12: whatever the cut points, sorted or not, the sizes that the loop of
    [generate] hands to the recursive calls add up to [k - 1]; the same
    holds of the sizes in the description's formula. *)
Theorem child_budgets_sum :
  forall k js (rec : Z -> M G expr) g,
    gen_args rec k js 0 [] g = mapM rec (loop_budgets k js 0) g /\
    sum_Z (loop_budgets k js 0) = k - 1 /\
    sum_Z (spec_budgets k js) = k - 1 /\
    List.length (loop_budgets k js 0) = S (List.length js).
Proof.
  intros k js rec g; repeat split.
  - apply gen_args_from_empty.
  - rewrite loop_budgets_sum; lia.
  - rewrite <- loop_budgets_spec, loop_budgets_sum; lia.
  - apply loop_budgets_length.
Qed.

End GenerateMoreFacts.

(** [generate(3)] on the linear congruential source started at 5,
    evaluated at (1/2, -1/2). *)
Lemma generate_eval_in_unit_witness :
  exists t g' r gr b,
    generate 3 (5 : Z) = (Ok t, g') /\
    eval t (1 / 2) (- (1 / 2)) = Ok (r, gr, b) /\
    (-1 <= r <= 1 /\ -1 <= gr <= 1 /\ -1 <= b <= 1)%R.
Proof.
  apply (@generate_eval_in_unit Z lcg_source 3%Z 5%Z); lra.
Defined.

(** * Properties of [Art]: progressive rendering *)

Module GuiFacts.
Import Gui.

Section Rendering.
Local Open Scope Z_scope.

(** [range(0, stop, step)] lists the multiples of [step] in [[0, stop)]. *)
Lemma in_range_step :
  forall stop step x,
    1 <= step ->
    (In x (range_step stop step) <->
     0 <= x < stop /\ exists i, 0 <= i /\ x = i * step).
Proof.
  intros stop step x Hstep; unfold range_step.
  rewrite in_map_iff; split.
  - intros (i & <- & Hi); apply in_seq in Hi.
    assert (Hq : Z.of_nat i < (stop + step - 1) / step) by lia.
    split; [| exists (Z.of_nat i); split; [lia | reflexivity]].
    split; [nia |].
    destruct (Z_lt_le_dec (Z.of_nat i * step) stop) as [Hlt | Hge];
      [exact Hlt |].
    assert ((stop + step - 1) / step < Z.of_nat i + 1)
      by (apply Z.div_lt_upper_bound; nia).
    lia.
  - intros ((Hlo & Hhi) & i & Hi & ->).
    exists (Z.to_nat i); split; [rewrite Z2Nat.id by lia; reflexivity |].
    apply in_seq; split; [lia |]; simpl.
    assert (i + 1 <= (stop + step - 1) / step)
      by (apply Z.div_le_lower_bound; nia).
    lia.
Qed.

Lemma coordinate_Ok :
  forall sz dd p,
    sz <> 0 ->
    coordinate sz dd p = Ok (2 * (IZR p + IZR dd / 2) / IZR sz - 1)%R.
Proof.
  intros sz dd p Hsz; unfold coordinate.
  rewrite py_div_nonzero by (apply not_0_IZR; exact Hsz); reflexivity.
Qed.

Lemma paint_Ok :
  forall self x,
    size self <> 0 ->
    exists rc,
      paint self x = Ok rc /\
      x0 rc = x /\ y0 rc = y self /\
      x1 rc = x + d self /\ y1 rc = y self + d self.
Proof.
  intros self x Hsz; unfold paint.
  rewrite !coordinate_Ok by exact Hsz; cbn [res_bind].
  match goal with
  | |- context [eval ?e ?u ?v] =>
      destruct (eval_channels e u v) as (r & g & b & ->)
  end.
  cbn [res_bind]; eexists; split; [reflexivity |]; simpl; auto.
Qed.

(** A row: the rectangles are appended to the canvas, one for each [x],
    and nothing else changes. *)
Lemma draw_row_Ok :
  forall xs self,
    (xs = [] \/ size self <> 0) ->
    exists row,
      draw_row self xs =
        Ok {| size := size self; canvas := canvas self ++ row;
              art := art self; d := d self; y := y self;
              draw_alarm := draw_alarm self |} /\
      Forall2 (fun x rc => paint self x = Ok rc) xs row.
Proof.
  induction xs as [| x xs IH]; intros self Hsz.
  - exists []; split; [| constructor].
    destruct self; simpl; rewrite app_nil_r; reflexivity.
  - destruct Hsz as [Hnil | Hsz]; [discriminate Hnil |].
    destruct (paint_Ok self x Hsz) as (rc & Erc & _).
    destruct (IH (create_rectangle self rc) (or_intror Hsz))
      as (row & Erow & Hrow).
    exists (rc :: row); split; [| constructor; [exact Erc | exact Hrow]].
    cbn [draw_row]; rewrite Erc; cbn [res_bind]; rewrite Erow.
    simpl; rewrite <- app_assoc; reflexivity.
Qed.

Lemma Forall2_In_l :
  forall (A B : Type) (R : A -> B -> Prop) l l' a,
    Forall2 R l l' -> In a l -> exists b, In b l' /\ R a b.
Proof.
  intros A B R l l' a Hf; induction Hf as [| a0 b0 l l' Hab _ IH];
    intros Hin; [contradiction |].
  destruct Hin as [-> | Hin].
  - exists b0; split; [now left | exact Hab].
  - destruct (IH Hin) as (b & Hb & Hr); exists b; split; [now right | auto].
Qed.

Lemma Forall2_In_r :
  forall (A B : Type) (R : A -> B -> Prop) l l' b,
    Forall2 R l l' -> In b l' -> exists a, In a l /\ R a b.
Proof.
  intros A B R l l' b Hf; induction Hf as [| a0 b0 l l' Hab _ IH];
    intros Hin; [contradiction |].
  destruct Hin as [-> | Hin].
  - exists a0; split; [now left | exact Hab].
  - destruct (IH Hin) as (a & Ha & Hr); exists a; split; [now right | auto].
Qed.

(** A call of [draw] inside a pass paints one row. *)
Lemma draw_paints :
  forall self,
    1 <= d self -> 0 <= y self < size self ->
    exists row,
      draw self =
        Ok {| size := size self; canvas := canvas self ++ row;
              art := art self; d := d self; y := y self + d self;
              draw_alarm := true |} /\
      Forall2 (fun x rc => paint self x = Ok rc)
              (range_step (size self) (d self)) row.
Proof.
  intros self Hd Hy; unfold draw.
  replace (size self <=? y self) with false
    by (symmetry; apply Z.leb_gt; lia).
  replace (1 <=? d self) with true by (symmetry; apply Z.leb_le; lia).
  destruct (@draw_row_Ok (range_step (size self) (d self)) self)
    as (row & -> & Hrow); [right; lia |].
  exists row; split; [reflexivity | exact Hrow].
Qed.

(** At the end of a pass [draw] starts over with a quarter of the cell
    size. *)
Lemma draw_switch :
  forall self,
    0 < size self -> size self <= y self ->
    draw self =
    draw {| size := size self; canvas := canvas self; art := art self;
            d := d self / 4; y := 0; draw_alarm := draw_alarm self |}.
Proof.
  intros self Hsz Hy; unfold draw; simpl.
  replace (size self <=? y self) with true
    by (symmetry; apply Z.leb_le; lia).
  replace (size self <=? 0) with false by (symmetry; apply Z.leb_gt; lia).
  reflexivity.
Qed.

Lemma mainloop_app :
  forall n m self self',
    mainloop n self = Ok self' ->
    mainloop (n + m) self = mainloop m self'.
Proof.
  induction n as [| n IH]; intros m self self' E; simpl in E.
  - injection E as <-; reflexivity.
  - cbn [Nat.add mainloop].
    destruct (draw_alarm self) eqn:Ea.
    + destruct (draw self) as [s1 | ex]; [| discriminate E].
      cbn [res_bind] in *; apply IH; exact E.
    + injection E as <-.
      destruct m as [| m]; [reflexivity |].
      cbn [mainloop]; rewrite Ea; reflexivity.
Qed.

Lemma paint_unit_cell :
  forall self x rc,
    d self = 1 -> paint self x = Ok rc -> unit_cell self x (y self) rc.
Proof.
  intros self x rc Hd E; unfold paint in E; rewrite Hd in E.
  unfold unit_cell.
  destruct (coordinate (size self) 1 x) as [u | ex]; [| discriminate E].
  destruct (coordinate (size self) 1 (y self)) as [v | ex];
    [| discriminate E].
  cbn [res_bind] in E.
  destruct (eval (art self) u v) as [[[r g] b] | ex] eqn:Ee;
    [| discriminate E].
  cbn [res_bind] in E; injection E as <-.
  exists u, v, r, g, b; repeat split; exact Ee.
Qed.

(** From a call of [draw] inside a pass, the scheduled calls complete the
    pass: the cell size is unchanged, rows are only added to the canvas,
    and the next call is scheduled with [y] past the last row. *)
Lemma pass_from :
  forall m self,
    (Z.to_nat (size self - y self) <= m)%nat ->
    1 <= d self -> 0 <= y self < size self ->
    exists n self' rows,
      (s1 <- draw self ;; mainloop n s1)%res = Ok self' /\
      size self' = size self /\ art self' = art self /\
      d self' = d self /\ canvas self' = canvas self ++ rows /\
      size self <= y self' /\ draw_alarm self' = true /\
      (d self = 1 -> finest self (y self) rows).
Proof.
  induction m as [| m IH]; intros self Hm Hd Hy; [lia |].
  destruct (draw_paints self Hd Hy) as (row & Edraw & Hrow).
  set (s1 := {| size := size self; canvas := canvas self ++ row;
                art := art self; d := d self; y := y self + d self;
                draw_alarm := true |}) in *.
  assert (Hrowcells :
            d self = 1 ->
            Forall (fun rc => exists px, 0 <= px < size self /\
                                         unit_cell self px (y self) rc) row).
  { intros Hd1; apply Forall_forall; intros rc Hin.
    destruct (@Forall2_In_r _ _ _ _ _ rc Hrow Hin) as (x & Hx & Ex).
    apply in_range_step in Hx; [| lia].
    exists x; split; [lia | apply paint_unit_cell; assumption]. }
  assert (Hrowcover :
            d self = 1 ->
            forall px, 0 <= px < size self ->
                       exists rc, unit_cell self px (y self) rc /\ In rc row).
  { intros Hd1 px Hpx.
    assert (Hin : In px (range_step (size self) (d self))).
    { apply in_range_step; [lia |]; split; [lia |].
      exists px; split; [lia | rewrite Hd1; lia]. }
    destruct (@Forall2_In_l _ _ _ _ _ px Hrow Hin) as (rc & Hrc & Erc).
    exists rc; split; [apply paint_unit_cell; assumption | exact Hrc]. }
  destruct (Z_lt_le_dec (y self + d self) (size self)) as [Hmore | Hdone].
  - destruct (IH s1) as (n & self' & rows & Erun & Hsz & Hart & Hdd & Hcv
                         & Hy' & Ha & Hfin);
      [simpl; lia | exact Hd | simpl; lia |].
    simpl in Hsz, Hart, Hdd, Hcv, Hy', Hfin.
    exists (S n), self', (row ++ rows).
    rewrite Edraw; cbn [res_bind mainloop].
    change (draw_alarm s1) with true; cbv iota.
    split; [exact Erun |].
    repeat split; try assumption.
    + rewrite Hcv, app_assoc; reflexivity.
    + apply Forall_app; split.
      * eapply Forall_impl; [| exact (Hrowcells H)].
        intros rc (px & Hpx & Hcell).
        exists px, (y self); repeat split; try lia; exact Hcell.
      * destruct (Hfin H) as (Hrest & _).
        eapply Forall_impl; [| exact Hrest].
        intros rc (px & py & Hpx & Hpy & Hcell); simpl in Hpx, Hpy.
        exists px, py; repeat split; try lia; exact Hcell.
    + intros px py Hpx Hpy.
      destruct (Z.eq_dec py (y self)) as [-> | Hne].
      * destruct (Hrowcover H px Hpx) as (rc & Hcell & Hin).
        exists rc; split; [exact Hcell | apply in_or_app; now left].
      * destruct (Hfin H) as (_ & Hcover).
        destruct (Hcover px py) as (rc & Hcell & Hin);
          [simpl; lia | simpl; lia |].
        exists rc; split; [exact Hcell | apply in_or_app; now right].
  - exists 0%nat, s1, row.
    rewrite Edraw; cbn [res_bind mainloop].
    split; [reflexivity |].
    repeat split; try reflexivity; try (simpl; lia).
    + eapply Forall_impl; [| exact (Hrowcells H)].
      intros rc (px & Hpx & Hcell).
      exists px, (y self); repeat split; try lia; exact Hcell.
    + intros px py Hpx Hpy.
      assert (Epy : py = y self) by lia.
      subst py; apply (Hrowcover H px Hpx).
Qed.

(** The scheduled call that finds a pass complete starts the next one,
    which the further calls complete. *)
Lemma next_pass :
  forall self,
    draw_alarm self = true -> 0 < size self -> size self <= y self ->
    1 <= d self / 4 ->
    exists n self' rows,
      mainloop n self = Ok self' /\
      size self' = size self /\ art self' = art self /\
      d self' = d self / 4 /\ canvas self' = canvas self ++ rows /\
      size self <= y self' /\ draw_alarm self' = true /\
      (d self / 4 = 1 -> finest self 0 rows).
Proof.
  intros self Ha Hsz Hy Hd.
  set (r := {| size := size self; canvas := canvas self; art := art self;
               d := d self / 4; y := 0; draw_alarm := draw_alarm self |}).
  destruct (@pass_from (Z.to_nat (size r - y r)) r)
    as (n & self' & rows & Erun & Hrest); [lia | exact Hd | simpl; lia |].
  exists (S n), self', rows; split; [| exact Hrest].
  cbn [mainloop]; rewrite Ha, draw_switch by assumption; exact Erun.
Qed.

(** The scheduled call that finds the finest pass complete schedules
    nothing. *)
Lemma last_call :
  forall self,
    draw_alarm self = true -> 0 < size self -> size self <= y self ->
    d self = 1 ->
    mainloop 1 self =
    Ok {| size := size self; canvas := canvas self; art := art self;
          d := 0; y := 0; draw_alarm := false |}.
Proof.
  intros self Ha Hsz Hy Hd.
  cbn [mainloop]; rewrite Ha, draw_switch by assumption.
  unfold draw; simpl.
  replace (size self <=? 0) with false by (symmetry; apply Z.leb_gt; lia).
  rewrite Hd; reflexivity.
Qed.

Lemma finest_same :
  forall a b from rows,
    size a = size b -> art a = art b ->
    finest a from rows -> finest b from rows.
Proof.
  intros a b from rows Hs Ha; unfold finest, unit_cell.
  rewrite Hs, Ha; tauto.
Qed.

Lemma mainloop_idle :
  forall n self, draw_alarm self = false -> mainloop n self = Ok self.
Proof.
  intros [| n] self Ha; cbn [mainloop]; [| rewrite Ha]; reflexivity.
Qed.

(** From the state that [redraw] sets up, the call of [draw] and the
    scheduled calls after it paint the four passes and stop. *)
Lemma render :
  forall s0,
    0 < size s0 -> d s0 = 64 -> y s0 = 0 ->
    exists n final coarse fine,
      (s1 <- draw s0 ;; mainloop n s1)%res = Ok final /\
      draw_alarm final = false /\
      size final = size s0 /\ art final = art s0 /\
      canvas final = canvas s0 ++ coarse ++ fine /\
      finest s0 0 fine.
Proof.
  intros s0 Hsz Hd Hy.
  destruct (@pass_from (Z.to_nat (size s0 - y s0)) s0)
    as (n1 & a1 & rows1 & E1 & Hs1 & Ht1 & Hd1 & Hc1 & Hy1 & Ha1 & _);
    [lia | lia | lia |].
  rewrite Hd in Hd1.
  destruct (next_pass a1) as (n2 & a2 & rows2 & E2 & Hs2 & Ht2 & Hd2 & Hc2
                              & Hy2 & Ha2 & _);
    [exact Ha1 | lia | lia | rewrite Hd1; apply Z.leb_le; reflexivity |].
  rewrite Hd1 in Hd2; change (64 / 4) with 16 in Hd2.
  destruct (next_pass a2) as (n3 & a3 & rows3 & E3 & Hs3 & Ht3 & Hd3 & Hc3
                              & Hy3 & Ha3 & _);
    [exact Ha2 | lia | lia | rewrite Hd2; apply Z.leb_le; reflexivity |].
  rewrite Hd2 in Hd3; change (16 / 4) with 4 in Hd3.
  destruct (next_pass a3) as (n4 & a4 & rows4 & E4 & Hs4 & Ht4 & Hd4 & Hc4
                              & Hy4 & Ha4 & Hfin);
    [exact Ha3 | lia | lia | rewrite Hd3; apply Z.leb_le; reflexivity |].
  rewrite Hd3 in Hd4, Hfin; change (4 / 4) with 1 in Hd4, Hfin.
  pose proof (@last_call a4 Ha4) as E5.
  exists (n1 + (n2 + (n3 + (n4 + 1))))%nat.
  eexists; exists (rows1 ++ rows2 ++ rows3), rows4.
  split; [| split; [| split; [| split; [| split]]]].
  - destruct (draw s0) as [s1 | ex]; [| discriminate E1].
    cbn [res_bind] in *.
    rewrite (@mainloop_app n1 _ _ _ E1), (@mainloop_app n2 _ _ _ E2),
      (@mainloop_app n3 _ _ _ E3), (@mainloop_app n4 _ _ _ E4).
    apply E5; [lia | lia | exact Hd4].
  - reflexivity.
  - simpl; congruence.
  - simpl; congruence.
  - simpl; rewrite Hc4, Hc3, Hc2, Hc1, <- !app_assoc; reflexivity.
  - apply (@finest_same a3); [congruence | congruence |].
    apply Hfin; reflexivity.
Qed.

Local Open Scope R_scope.

Lemma coordinate_inside :
  forall sz dd p,
    (1 <= dd)%Z -> (0 <= p)%Z -> (p + dd <= sz)%Z ->
    exists u, coordinate sz dd p = Ok u /\ -1 < u < 1.
Proof.
  intros sz dd p Hdd Hp Hfit.
  rewrite coordinate_Ok by lia.
  eexists; split; [reflexivity |].
  assert (Hsz : 0 < IZR sz) by (apply IZR_lt; lia).
  assert (Hd : 1 <= IZR dd) by (apply IZR_le; lia).
  assert (Hp' : 0 <= IZR p) by (apply IZR_le; lia).
  assert (Hf : IZR p + IZR dd <= IZR sz)
    by (rewrite <- plus_IZR; apply IZR_le; lia).
  assert (Hq : 0 < 2 * (IZR p + IZR dd / 2) / IZR sz < 2).
  { split.
    - apply Rdiv_lt_0_compat; lra.
    - apply (Rmult_lt_reg_r (IZR sz)); [exact Hsz |].
      unfold Rdiv at 1; rewrite Rmult_assoc, Rinv_l by lra; lra. }
  lra.
Qed.



Local Open Scope Z_scope.

Lemma painted_same :
  forall a b dd rc,
    size a = size b -> art a = art b -> painted a dd rc -> painted b dd rc.
Proof.
  intros a b dd rc Hs Ha; unfold painted; rewrite Hs, Ha; tauto.
Qed.

(** A cell inside the canvas is painted without an exception. *)
Lemma paint_painted :
  forall self x,
    1 <= d self -> 0 <= x -> x + d self <= size self ->
    0 <= y self -> y self + d self <= size self ->
    every_node drawn_in_range (art self) ->
    exists rc,
      paint self x = Ok rc /\ x0 rc = x /\ y0 rc = y self /\
      painted self (d self) rc.
Proof.
  intros self x Hd Hx Hxf Hy Hyf Hc.
  destruct (@coordinate_inside (size self) (d self) x) as (u & Eu & Hu);
    try assumption.
  destruct (@coordinate_inside (size self) (d self) (y self))
    as (v & Ev & Hv); try assumption.
  destruct (@eval_checked_in_unit (art self) u v Hc)
    as ([[r g] b] & Ec & Ee & Hr & Hg & Hb);
    [unfold unit_range; lra | unfold unit_range; lra |].
  assert (Ergb : rgb_checked r g b = Ok (rgb r g b)).
  { apply rgb_checked_finite; apply finite_scaled;
      (eapply Rle_trans; [apply -> unit_range_Rabs; eassumption | lra]). }
  eexists; split.
  { unfold paint; rewrite Eu, Ev; cbn [res_bind]; rewrite Ee.
    cbn [res_bind]; reflexivity. }
  split; [reflexivity | split; [reflexivity |]].
  exists u, v, r, g, b; cbn [x0 y0 x1 y1 fill].
  split; [exact Eu | split; [exact Ev | split; [exact Hu |]]].
  split; [exact Hv | split; [exact Ec | split; [exact Ergb |]]].
  lia.
Qed.

Lemma range_step_length :
  forall stop step,
    1 <= step -> 0 <= stop -> (step | stop) ->
    Z.of_nat (List.length (range_step stop step)) = stop / step.
Proof.
  intros stop step Hstep Hstop (k & ->); unfold range_step.
  rewrite length_map, length_seq.
  replace (k * step + step - 1) with (step - 1 + k * step) by lia.
  rewrite Z.div_add, Z.div_small, Z.div_mul by lia.
  assert (0 <= k) by nia.
  lia.
Qed.

(** A call of [draw] on a row inside the canvas paints the cells of the
    row. *)
Lemma draw_row_painted :
  forall self,
    1 <= d self -> 0 <= y self -> y self + d self <= size self ->
    (d self | size self) ->
    every_node drawn_in_range (art self) ->
    exists row,
      draw self =
        Ok {| size := size self; canvas := canvas self ++ row;
              art := art self; d := d self; y := y self + d self;
              draw_alarm := true |} /\
      Z.of_nat (List.length row) = size self / d self /\
      Forall (fun rc => y0 rc = y self /\ painted self (d self) rc) row.
Proof.
  intros self Hd Hy Hyf Hdiv Hc.
  destruct (draw_paints self Hd) as (row & Edraw & Hrow); [lia |].
  exists row; split; [exact Edraw | split].
  - rewrite <- (Forall2_length Hrow).
    apply range_step_length; [exact Hd | lia | exact Hdiv].
  - apply Forall_forall; intros rc Hin.
    destruct (@Forall2_In_r _ _ _ _ _ rc Hrow Hin) as (x & Hx & Ex).
    apply in_range_step in Hx; [| exact Hd].
    destruct Hx as ((Hx0 & Hx1) & i & Hi & ->).
    destruct Hdiv as (k & Hk).
    assert (Hik : i < k)
      by (apply Z.mul_lt_mono_pos_r with (d self); lia).
    assert (Hfit : i * d self + d self <= size self) by nia.
    destruct (@paint_painted self (i * d self))
      as (rc' & Erc & _ & Hy0 & Hp); try assumption.
    rewrite Erc in Ex; injection Ex as <-.
    split; assumption.
Qed.

(** X13: a call of [draw] with a row of cells inside the canvas in front
    of it ([d >= 1] divides [size], and [y + d <= size]; [size] is small
    enough for the conversions to floats to be exact) raises nothing: it
    keeps [size], [art] and [d], adds to the canvas the [size / d] cells of
    the row, each painted with the colour of the expression at its
    centre, moves [y] to the next row and schedules a further call.  The
    expression has its attributes in the intervals they are drawn from. *)
Theorem draw_effect :
  forall self,
    1 <= d self -> 0 <= y self -> y self + d self <= size self ->
    (d self | size self) -> size self <= 2 ^ 53 ->
    every_node drawn_in_range (art self) ->
    exists self' rows,
      draw self = Ok self' /\
      size self' = size self /\ art self' = art self /\
      d self' = d self /\ y self' = y self + d self /\
      draw_alarm self' = true /\
      canvas self' = canvas self ++ rows /\
      Z.of_nat (List.length rows) = size self / d self /\
      Forall (fun rc => y0 rc = y self /\ painted self (d self) rc) rows.
Proof.
  intros self Hd Hy Hyf Hdiv _ Hc.
  destruct (draw_row_painted self Hd Hy Hyf Hdiv Hc)
    as (row & Edraw & Hlen & Hrow).
  eexists; exists row; split; [exact Edraw |].
  cbn [size art d y draw_alarm canvas].
  repeat split; assumption.
Qed.

Lemma draw_effect_witness :
  exists self' rows,
    draw {| size := 256; canvas := []; art := Tent VariableX;
            d := 64; y := 192; draw_alarm := false |} = Ok self' /\
    canvas self' = rows /\ Z.of_nat (List.length rows) = 4.
Proof.
  destruct (@draw_effect
              {| size := 256; canvas := []; art := Tent VariableX;
                 d := 64; y := 192; draw_alarm := false |})
    as (self' & rows & E & _ & _ & _ & _ & _ & Hcv & Hlen & _);
    cbn [size d y art every_node drawn_in_range];
    try lia; try tauto.
  - exists 4; reflexivity.
  - exists self', rows; split; [exact E | split; [exact Hcv | exact Hlen]].
Defined.

Lemma pass_divides :
  forall dd sz, In dd [64; 16; 4; 1] -> (64 | sz) -> (dd | sz).
Proof.
  intros dd sz Hin (k & ->).
  destruct Hin as [<- | [<- | [<- | [<- | []]]]].
  - exists k; lia.
  - exists (4 * k); lia.
  - exists (16 * k); lia.
  - exists (64 * k); lia.
Qed.

(** A call of [draw] keeps the state among those of [rendering]. *)
Lemma draw_rendering_inside :
  forall self,
    rendering self -> y self < size self ->
    exists self',
      draw self = Ok self' /\ size self' = size self /\
      art self' = art self /\ rendering self'.
Proof.
  intros self (Hsz & H64 & Hd & Hy & Hdy & Hc & Hcv) Hin.
  destruct (Z_le_gt_dec 1 (d self)) as [Hd1 | Hd0].
  - assert (Hpass : In (d self) [64; 16; 4; 1]).
    { cbn [In] in *; lia. }
    pose proof (pass_divides Hpass H64) as Hdiv.
    assert (Hfit : y self + d self <= size self).
    { destruct Hdy as (j & Hj); destruct Hdiv as (k & Hk).
      assert (Hjk : j < k)
        by (apply Z.mul_lt_mono_pos_r with (d self); lia).
      nia. }
    destruct (draw_row_painted self Hd1 Hy Hfit Hdiv Hc)
      as (row & Edraw & _ & Hrow).
    eexists; split; [exact Edraw |].
    split; [reflexivity | split; [reflexivity |]].
    unfold rendering; cbn [size art d y draw_alarm canvas].
    split; [exact Hsz | split; [exact H64 | split; [exact Hd |]]].
    split; [lia | split; [| split; [exact Hc |]]].
    + apply Z.divide_add_r; [exact Hdy | apply Z.divide_refl].
    + apply Forall_app; split.
      * eapply Forall_impl; [| exact Hcv].
        intros rc (dd & Hdd & Hp); exists dd; split; [exact Hdd |].
        eapply painted_same; [| | exact Hp]; reflexivity.
      * eapply Forall_impl; [| exact Hrow].
        intros rc (_ & Hp); exists (d self); split; [exact Hpass |].
        eapply painted_same; [| | exact Hp]; reflexivity.
  - unfold draw.
    replace (size self <=? y self) with false
      by (symmetry; apply Z.leb_gt; lia).
    replace (1 <=? d self) with false by (symmetry; apply Z.leb_gt; lia).
    eexists; split; [reflexivity |].
    split; [reflexivity | split; [reflexivity |]].
    unfold rendering; cbn [size art d y draw_alarm canvas].
    repeat split; assumption.
Qed.

Lemma draw_rendering :
  forall self,
    rendering self ->
    exists self',
      draw self = Ok self' /\ size self' = size self /\
      art self' = art self /\ rendering self'.
Proof.
  intros self Hr.
  destruct (Z_le_gt_dec (size self) (y self)) as [Hout | Hin];
    [| apply draw_rendering_inside; [exact Hr | lia]].
  destruct Hr as (Hsz & H64 & Hd & Hy & Hdy & Hc & Hcv).
  rewrite draw_switch by assumption.
  set (s := {| size := size self; canvas := canvas self; art := art self;
               d := d self / 4; y := 0; draw_alarm := draw_alarm self |}).
  destruct (@draw_rendering_inside s) as (self' & E & Hs & Ha & Hr');
    [| simpl; lia | exists self'; auto].
  unfold rendering, s; cbn [size art d y draw_alarm canvas].
  split; [exact Hsz | split; [exact H64 | split]].
  { cbn [In] in Hd.
    destruct Hd as [<- | [<- | [<- | [<- | [<- | []]]]]];
      vm_compute; tauto. }
  split; [lia | split; [apply Z.divide_0_r | split; [exact Hc |]]].
  eapply Forall_impl; [| exact Hcv].
  intros rc (dd & Hdd & Hp); exists dd; split; [exact Hdd |].
  eapply painted_same; [| | exact Hp]; reflexivity.
Qed.

Lemma mainloop_rendering :
  forall n self self',
    rendering self -> mainloop n self = Ok self' ->
    size self' = size self /\ art self' = art self /\ rendering self'.
Proof.
  induction n as [| n IH]; intros self self' Hr E; cbn [mainloop] in E.
  - injection E as <-; auto.
  - destruct (draw_alarm self); [| injection E as <-; auto].
    destruct (draw_rendering Hr) as (s1 & E1 & Hs1 & Ha1 & Hr1).
    rewrite E1 in E; cbn [res_bind] in E.
    destruct (IH s1 self' Hr1 E) as (Hs & Ha & Hr').
    split; [congruence | split; [congruence | exact Hr']].
Qed.


End Rendering.

Section Redrawing.
Context {G : Type} `{RandomSource G}.
Local Open Scope Z_scope.

Lemma randrange_between_Ok :
  forall start stop g,
    start < stop ->
    exists k g',
      randrange_between start stop g = (Ok k, g') /\ start <= k < stop.
Proof.
  intros start stop g Hlt; unfold randrange_between.
  replace (0 <? stop - start) with true by (symmetry; apply Z.ltb_lt; lia).
  assert (Hw : 0 < stop - start) by lia.
  pose proof (randbelow_range g Hw) as Hr.
  destruct (randbelow (stop - start) g) as [i g']; simpl in Hr.
  exists (start + i), g'; split; [reflexivity | lia].
Qed.

(** What [redraw] returns, in terms of the size it draws and the tree it
    generates. *)
Lemma redraw_run :
  forall self g,
  exists k g1 e g2,
    randrange_between 20 150 g = (Ok k, g1) /\ 20 <= k < 150 /\
    generate k g1 = (Ok e, g2) /\
    redraw self g =
      (draw {| size := size self; canvas := []; art := e;
               d := 64; y := 0; draw_alarm := false |}, g2).
Proof.
  intros self g.
  destruct (@randrange_between_Ok 20 150 g) as (k & g1 & Ek & Hk); [lia |].
  destruct (generate_Ok k g1) as (e & g2 & Ee).
  exists k, g1, e, g2; repeat split; try assumption; try lia.
  unfold redraw, bind; rewrite Ek, Ee; reflexivity.
Qed.

Lemma redraw_drawn :
  forall k (g : G) e g',
    generate k g = (Ok e, g') -> every_node drawn_in_range e.
Proof.
  intros k g e g' E.
  exact (generate_fuel_every drawn_in_range construct_drawn _ _ _ E).
Qed.

(** X15: on a canvas whose size is a positive multiple of 64 (and small
    enough for the conversions to floats to be exact) [redraw] raises
    nothing; the expression it installs comes from a size [k] in
    [[20, 150)], has exactly [k] composite nodes and no path of more than
    [k + 1 <= 150] nodes, and a recursion depth of 151 is enough to
    generate it; the call of [draw] that ends [redraw] paints the first row
    of the coarsest pass, [size / 64] cells of side 64, and schedules the
    next call. *)
Theorem redraw_art :
  forall self g,
    0 < size self -> (64 | size self) -> size self <= 2 ^ 53 ->
    exists k g1 g2 first,
      randrange_between 20 150 g = (Ok k, g1) /\ 20 <= k < 150 /\
      redraw self g = (Ok first, g2) /\
      generate_fuel 151 k g1 = (Ok (art first), g2) /\
      size first = size self /\
      composites (art first) = Z.to_nat k /\
      (height (art first) <= Z.to_nat k + 1 <= 150)%nat /\
      d first = 64 /\ y first = 64 /\ draw_alarm first = true /\
      Z.of_nat (List.length (canvas first)) = size self / 64 /\
      Forall (fun rc => y0 rc = 0 /\ painted first 64 rc) (canvas first).
Proof.
  intros self g Hsz H64 _.
  destruct (redraw_run self g) as (k & g1 & e & g2 & Ek & Hk & Ee & Er).
  set (s0 := {| size := size self; canvas := []; art := e;
                d := 64; y := 0; draw_alarm := false |}) in *.
  assert (Hfit : y s0 + d s0 <= size s0).
  { destruct H64 as (j & Hj); unfold s0; simpl; lia. }
  destruct (@draw_row_painted s0) as (row & Ed & Hlen & Hrow);
    try exact Hfit; try exact H64; try (unfold s0; simpl; lia).
  { exact (redraw_drawn _ _ Ee). }
  unfold s0 in Ed, Hlen, Hrow; cbn [size art d y canvas app] in Ed, Hlen, Hrow.
  exists k, g1, g2,
    {| size := size self; canvas := row; art := e; d := 64; y := 0 + 64;
       draw_alarm := true |}.
  rewrite Er; unfold s0; rewrite Ed.
  cbn [size art d y draw_alarm canvas].
  assert (Ef : generate_fuel 151 k g1 = (Ok e, g2)).
  { rewrite <- Ee; unfold generate.
    apply generate_fuel_irrelevant; lia. }
  split; [exact Ek | split; [exact Hk | split; [reflexivity |]]].
  split; [exact Ef | split; [reflexivity | split]].
  { apply (@generate_fuel_composites _ _ 151%nat k g1 e g2);
      [lia | exact Ef]. }
  split.
  { pose proof (@generate_fuel_height _ _ (S (Z.to_nat k)) k g1 e g2) as Hh.
    specialize (Hh ltac:(lia) Ee); lia. }
  split; [reflexivity | split; [reflexivity | split; [reflexivity |]]].
  split; [exact Hlen | exact Hrow].
Qed.

(** X16: on a canvas whose size is a positive multiple of 64 (and small
    enough for the conversions to floats to be exact), [redraw] followed by
    the scheduled calls of [draw] raises nothing and comes to rest after
    finitely many calls with nothing scheduled; every rectangle then on the
    canvas is a cell of one of the four passes, painted at a point of the
    open unit square; the canvas ends with rectangles that are all cells of
    single pixels filled with the colour of the expression at the centre
    of the pixel, and every pixel of the canvas has its cell among
    them. *)
Theorem redraw_renders :
  forall self g,
    0 < size self -> (64 | size self) -> size self <= 2 ^ 53 ->
    exists first g' n final coarse fine,
      redraw self g = (Ok first, g') /\
      mainloop n first = Ok final /\
      (forall m, (n <= m)%nat -> mainloop m first = Ok final) /\
      draw_alarm final = false /\
      size final = size self /\ art final = art first /\
      canvas final = coarse ++ fine /\
      Forall (fun rc =>
                exists dd, In dd [64; 16; 4; 1] /\ painted first dd rc)
             (canvas final) /\
      Forall (fun rc =>
                exists px py,
                  0 <= px < size self /\ 0 <= py < size self /\
                  unit_cell first px py rc) fine /\
      (forall px py,
          0 <= px < size self -> 0 <= py < size self ->
          exists rc, unit_cell first px py rc /\ In rc fine).
Proof.
  intros self g Hsz H64 _.
  destruct (redraw_run self g) as (k & g1 & e & g2 & _ & _ & Ee & Er).
  set (s0 := {| size := size self; canvas := []; art := e;
                d := 64; y := 0; draw_alarm := false |}) in *.
  destruct (@render s0) as (n & final & coarse & fine & Erun & Ha & Hs
                            & Ht & Hc & Hfin);
    [exact Hsz | reflexivity | reflexivity |].
  assert (Hr0 : rendering s0).
  { unfold rendering, s0; cbn [size art d y draw_alarm canvas].
    split; [exact Hsz | split; [exact H64 | split; [now left |]]].
    split; [lia | split; [apply Z.divide_0_r |]].
    split; [exact (redraw_drawn _ _ Ee) | constructor]. }
  destruct (draw_rendering Hr0) as (first & Ed & Hs1 & Ht1 & Hr1).
  rewrite Ed in Erun, Er; cbn [res_bind] in Erun.
  destruct (mainloop_rendering _ Hr1 Erun) as (Hs2 & Ht2 & Hr2).
  simpl in Hs, Ht, Hc, Hs1, Ht1.
  apply (@finest_same s0 first) in Hfin;
    [| unfold s0; simpl; congruence | unfold s0; simpl; congruence].
  destruct Hfin as (Hcells & Hcover); rewrite Hs1 in Hcells, Hcover.
  exists first, g2, n, final, coarse, fine.
  split; [exact Er | split; [exact Erun | split]].
  { intros m Hm.
    replace m with (n + (m - n))%nat by lia.
    rewrite (@mainloop_app n _ _ _ Erun).
    apply mainloop_idle; exact Ha. }
  split; [exact Ha | split; [congruence | split; [congruence |]]].
  split; [exact Hc | split; [| split; [exact Hcells | exact Hcover]]].
  destruct Hr2 as (_ & _ & _ & _ & _ & _ & Hcv).
  eapply Forall_impl; [| exact Hcv].
  intros rc (dd & Hdd & Hp); exists dd; split; [exact Hdd |].
  eapply painted_same; [| | exact Hp]; assumption.
Qed.

End Redrawing.

(** [redraw] on a canvas of 64 by 64 pixels, on the linear congruential
    source started at 5. *)
Lemma redraw_art_witness :
  exists first g',
    redraw {| size := 64; canvas := []; art := VariableX; d := 0; y := 0;
              draw_alarm := false |} (5 : Z) = (Ok first, g') /\
    Z.of_nat (List.length (canvas first)) = 1%Z.
Proof.
  destruct (@redraw_art Z lcg_source
              {| size := 64; canvas := []; art := VariableX; d := 0; y := 0;
                 draw_alarm := false |} 5%Z)
    as (k & g1 & g2 & first & _ & _ & Er & _ & _ & _ & _ & _ & _ & _
        & Hlen & _);
    cbn [size]; try lia.
  - exists 1%Z; reflexivity.
  - exists first, g2; split; [exact Er | exact Hlen].
Defined.

Lemma redraw_renders_witness :
  exists first g' n final,
    redraw {| size := 64; canvas := []; art := VariableX; d := 0; y := 0;
              draw_alarm := false |} (5 : Z) = (Ok first, g') /\
    mainloop n first = Ok final /\ draw_alarm final = false.
Proof.
  destruct (@redraw_renders Z lcg_source
              {| size := 64; canvas := []; art := VariableX; d := 0; y := 0;
                 draw_alarm := false |} 5%Z)
    as (first & g' & n & final & coarse & fine & Er & Erun & _ & Ha & _);
    cbn [size]; try lia.
  - exists 1%Z; reflexivity.
  - exists first, g', n, final; auto.
Defined.

End GuiFacts.
